(** * verify-poi: side detection, observation grouping and position
      optimisation of points of interest along a route.

    A shallow embedding of [process_poi/side_detector.py] and
    [process_poi/POI_Optimizer.py].

    Numbers.  The finite Python floats of the program are modelled by
    rationals ([Q]); Python's [==] on floats is [Qeq] (decided by
    [Qeq_bool]), [<=] is [Qle_bool].  Where the program decides on the
    last digits of a result ([determine_side] compares a remainder with 0
    and with 180) the operations round as binary64 arithmetic does (module
    [Double]); elsewhere the arithmetic is exact and rounding is not
    modelled.  The transcendental functions of [math] and [numpy] ([sin],
    [cos], [atan2], [arcsin], [sqrt], [radians], [degrees]) have no
    rational counterpart: they are the fields of a record [MathLib] over
    which the development is parameterised, and the formulas of the
    program are transcribed on top of them.

    Limits.  The inputs have the shape the program is written for: the
    ["location"] of a POI is absent or an object and its ["types"] a list
    of strings, never null.  [m_sqrt] is total: the [ValueError] that
    [math.sqrt] raises on a negative argument, which rounding can produce
    in [haversine_and_bearing] for antipodal points, is not modelled. *)

From Stdlib Require Import QArith Qround Qpower Qabs Lqa Lia String Ascii List
  Permutation.
From stdpp Require Import gmap strings list.

Local Open Scope Q_scope.

(** ** Python numbers *)

Module Py.

(** [x < y] on floats. *)
Definition Qlt_bool (x y : Q) : bool := negb (Qle_bool y x).

(** [x % m] on floats, for a positive modulus: the result has the sign of
    [m], that is [x - m * floor (x / m)]. *)
Definition fmod (x m : Q) : Q := x - m * inject_Z (Qfloor (x / m)).

(** [sum(l)] and [np.sum(l)]. *)
Definition sum (l : list Q) : Q := fold_right Qplus 0 l.

(** [np.mean(l)]: the sum over the number of elements.  (On the empty
    list numpy answers NaN; the program never takes the mean of an empty
    list.) *)
Definition mean (l : list Q) : Q := sum l / inject_Z (Z.of_nat (length l)).

(** Exceptions the modelled code can raise, and the result of a call. *)
Inductive exn : Set := IndexError | TypeError | ValueError.

Inductive result (A : Type) : Type :=
| Ok (a : A)
| Raise (e : exn).
Arguments Ok {A} a.
Arguments Raise {A} e.

Definition bind {A B} (r : result A) (k : A -> result B) : result B :=
  match r with
  | Ok a => k a
  | Raise e => Raise e
  end.

(** A [for] loop whose body may raise: the first exception leaves the
    loop. *)
Fixpoint for_each {S X} (body : S -> X -> result S) (xs : list X) (s : S)
  : result S :=
  match xs with
  | [] => Ok s
  | x :: xs' => bind (body s x) (for_each body xs')
  end.

End Py.

Import Py.

(** The exception-propagating sequencing, written [x ← r; k]. *)
Global Instance result_bind : MBind result := fun A B k r => Py.bind r k.

(** ** Python floats *)

(** A Python float is an IEEE 754 binary64 number.  The finite ones are
    rationals; the result of an operation is the exact result rounded to the
    nearest double, ties to the even significand, and an infinity when the
    rounded magnitude reaches [2 ^ 1024]. *)
Module Double.

Definition prec : Z := 53.
Definition emin : Z := -1074.
Definition emax : Z := 1024.

(** The integer [e] with [2 ^ e <= x < 2 ^ (e + 1)], for a positive [x]. *)
Definition ilog2 (x : Q) : Z :=
  let e0 := (Z.log2 (Qnum x) - Z.log2 (Zpos (Qden x)))%Z in
  if Qle_bool (2 ^ e0) x then e0 else (e0 - 1)%Z.

(** The exponent of the unit in the last place of the doubles around a
    positive [x]: 53 significant bits, and no exponent below that of the
    subnormal numbers. *)
Definition ulp_exponent (x : Q) : Z := Z.max (ilog2 x - (prec - 1)) emin.

(** The integer nearest to [m], the even one of the two when [m] is half way. *)
Definition round_half_even (m : Q) : Z :=
  let f := Qfloor m in
  match Qcompare (m - inject_Z f) (1 # 2) with
  | Lt => f
  | Gt => (f + 1)%Z
  | Eq => if Z.even f then f else (f + 1)%Z
  end.

(** The multiple of the unit in the last place nearest to a positive [x]. *)
Definition nearest_positive (x : Q) : Q :=
  let u := ulp_exponent x in
  inject_Z (round_half_even (x / 2 ^ u)) * 2 ^ u.

Definition nearest (x : Q) : Q :=
  if Qeq_bool x 0 then 0
  else if Qlt_bool x 0 then - nearest_positive (- x)
  else nearest_positive x.

(** The double an exact result [x] is rounded to; [None] is an infinity. *)
Definition round (x : Q) : option Q :=
  let y := nearest x in
  if Qle_bool (2 ^ emax) (Qabs y) then None else Some y.

(** [x] is the value of a finite double. *)
Definition is_double (x : Q) : bool :=
  match round x with
  | Some y => Qeq_bool y x
  | None => false
  end.

(** The quotient rounded towards zero. *)
Definition Qtrunc (x : Q) : Z := Z.quot (Qnum x) (Zpos (Qden x)).

(** [x % y] on floats, for finite [x] and a finite [y] other than zero
    ([float_rem] of CPython): the remainder of C's [fmod], which is exact
    and has the sign of [x], moved by [y] (a float addition, which rounds)
    when it is not zero and its sign is not that of [y]. *)
Definition rem (x y : Q) : option Q :=
  let r := x - y * inject_Z (Qtrunc (x / y)) in
  if Qeq_bool r 0 then Some 0
  else if xorb (Qlt_bool y 0) (Qlt_bool r 0) then round (r + y)
  else Some r.

End Double.

(** ** The functions of [math] and [numpy] the program calls *)

Record MathLib : Type := {
  m_sin : Q -> Q;
  m_cos : Q -> Q;
  m_arcsin : Q -> Q;
  m_atan2 : Q -> Q -> Q;
  m_sqrt : Q -> Q;
  m_radians : Q -> Q;
  m_degrees : Q -> Q
}.

(** ** side_detector.py *)

Inductive Side : Set := Left | Right.

Global Instance Side_eq_dec : EqDecision Side.
Proof. solve_decision. Defined.

Record Coordinate : Type := { lat : Q; lon : Q }.

(** One entry of [nearby["result"]].  [poi.get("name")],
    [location.get("lat")] and [location.get("lng")] answer [None] when the
    field is absent (a missing ["location"] is the empty dictionary, hence
    both coordinates absent). *)
Record Poi : Type := {
  name : option string;
  location_lat : option Q;
  location_lng : option Q;
  types : list string
}.

(** One element of [results]; [nearby.get("result", [])] is the list. *)
Record SearchResult : Type := {
  coordinate : Coordinate;
  nearby_result : list Poi
}.

(** A row of [data_to_write].  The last column is [None] when the row is
    built; the update pass writes the joined source coordinates there,
    kept here as the list that is joined. *)
Record Row : Type := {
  source_lat : Q;
  source_lon : Q;
  poi_name : option string;
  poi_lat : Q;
  poi_lon : Q;
  distance : Q;
  bearing : Q;
  side : Side;
  all_types : string;
  shared_with : option (list (Q * Q))
}.

(** The tuple [record_key]. *)
Definition Key : Type := (Q * Q * Q * Q * option string)%type.

(** Equality of two keys, as Python compares tuples: component by
    component with [==]. *)
Definition key_eqb (k1 k2 : Key) : bool :=
  let '(a1, b1, c1, d1, n1) := k1 in
  let '(a2, b2, c2, d2, n2) := k2 in
  Qeq_bool a1 a2 && Qeq_bool b1 b2 && Qeq_bool c1 c2 && Qeq_bool d1 d2
  && bool_decide (n1 = n2).

(** [k in seen_records]. *)
Definition key_mem (k : Key) (seen : list Key) : bool := existsb (key_eqb k) seen.

Definition row_key (r : Row) : Key :=
  (source_lat r, source_lon r, poi_lat r, poi_lon r, poi_name r).

(** A member of a POI group: [(side, source_lat, source_lon)]. *)
Definition GroupEntry : Type := (Side * Q * Q)%type.

Section SideDetector.

Variable M : MathLib.

Definition calculate_bearing (lat1 lon1 lat2 lon2 : Q) : Q :=
  let delta_lon := m_radians M (lon2 - lon1) in
  let lat1 := m_radians M lat1 in
  let lat2 := m_radians M lat2 in
  let x := m_sin M delta_lon * m_cos M lat2 in
  let y := m_cos M lat1 * m_sin M lat2
           - m_sin M lat1 * m_cos M lat2 * m_cos M delta_lon in
  let initial_bearing := m_atan2 M x y in
  fmod (m_degrees M initial_bearing + 360) 360.

(** [lat2 - lat1] and [lon2 - lon1] raise [TypeError] when the POI
    coordinate is [None]. *)
Definition haversine_and_bearing (lat1 lon1 : Q) (lat2 lon2 : option Q)
  : result (Q * Q) :=
  match lat2 with
  | None => Raise TypeError
  | Some lat2 =>
    match lon2 with
    | None => Raise TypeError
    | Some lon2 =>
      let EARTH_RADIUS := 6371 * 1000 in
      let dlat := m_radians M (lat2 - lat1) in
      let dlon := m_radians M (lon2 - lon1) in
      let lat1 := m_radians M lat1 in
      let lat2 := m_radians M lat2 in
      let a := m_sin M (dlat / 2) * m_sin M (dlat / 2)
               + m_cos M lat1 * m_cos M lat2
                 * (m_sin M (dlon / 2) * m_sin M (dlon / 2)) in
      let c := 2 * m_atan2 M (m_sqrt M a) (m_sqrt M (1 - a)) in
      let distance := EARTH_RADIUS * c in
      let y := m_sin M dlon * m_cos M lat2 in
      let x := m_cos M lat1 * m_sin M lat2
               - m_sin M lat1 * m_cos M lat2 * m_cos M dlon in
      let bearing := fmod (m_degrees M (m_atan2 M y x) + 360) 360 in
      Ok (distance, bearing)
    end
  end.

(** [delta = (poi_bearing - route_bearing + 360) % 360] on floats: the
    subtraction and the addition round, and so does the remainder when it
    moves a negative value.  A result that is not finite (an infinity of
    the subtraction or the addition gives NaN as remainder) compares false
    with 0 and with 180: "Left". *)
Definition determine_side (poi_bearing route_bearing : Q) : Side :=
  let delta :=
    d ← Double.round (poi_bearing - route_bearing);
    s ← Double.round (d + 360);
    Double.rem s 360 in
  match delta with
  | Some delta =>
      if Qle_bool 0 delta && Qle_bool delta 180 then Right else Left
  | None => Left
  end.

(** [for i in range(len(results) - 1)]: one bearing per consecutive
    pair. *)
Fixpoint _calculate_segment_bearings (results : list SearchResult) : list Q :=
  match results with
  | r1 :: ((r2 :: _) as rest) =>
      calculate_bearing (lat (coordinate r1)) (lon (coordinate r1))
                        (lat (coordinate r2)) (lon (coordinate r2))
      :: _calculate_segment_bearings rest
  | _ => []
  end.

(** The object's fields that [process_pois] updates. *)
Record State : Type := {
  poi_groups : gmap (option string) (list GroupEntry);
  seen_records : list Key;
  data_to_write : list Row
}.

Definition init_state : State :=
  {| poi_groups := ∅; seen_records := []; data_to_write := [] |}.

(** [self.poi_groups[name]] on a [defaultdict(list)]. *)
Definition group_of (g : gmap (option string) (list GroupEntry))
           (n : option string) : list GroupEntry :=
  default [] (g !! n).

(** [segment_bearings[i] if i < len(segment_bearings) else
    segment_bearings[-1]]; the index [-1] of an empty list raises. *)
Definition current_bearing_at (segment_bearings : list Q) (i : nat) : result Q :=
  match segment_bearings !! i with
  | Some b => Ok b
  | None =>
    match last segment_bearings with
    | Some b => Ok b
    | None => Raise IndexError
    end
  end.

(** The body of [for poi in nearby_results]. *)
Definition process_poi (src_lat src_lon current_bearing : Q)
           (st : State) (poi : Poi) : result State :=
  let name := name poi in
  let poi_lat := location_lat poi in
  let poi_lon := location_lng poi in
  let types := types poi in
  '(distance, poi_bearing) ←
      haversine_and_bearing src_lat src_lon poi_lat poi_lon;
  let side := determine_side poi_bearing current_bearing in
  match poi_lat, poi_lon with
  | Some plat, Some plon =>
    let record_key : Key := (src_lat, src_lon, plat, plon, name) in
    if key_mem record_key (seen_records st) then Ok st
    else
      Ok {| seen_records := record_key :: seen_records st;
            data_to_write :=
              data_to_write st ++
              [ {| source_lat := src_lat; source_lon := src_lon;
                   poi_name := name; poi_lat := plat; poi_lon := plon;
                   distance := distance; bearing := poi_bearing;
                   side := side;
                   all_types := String.concat "," types;
                   shared_with := None |} ];
            poi_groups :=
              <[ name := group_of (poi_groups st) name
                         ++ [(side, src_lat, src_lon)] ]> (poi_groups st) |}
  | _, _ => Raise TypeError
  end.

(** The body of [for i, result in enumerate(self.results)]. *)
Definition process_result (segment_bearings : list Q)
           (acc : (nat * State)%type) (res : SearchResult)
  : result (nat * State)%type :=
  let '(i, st) := acc in
  let src_lat := lat (coordinate res) in
  let src_lon := lon (coordinate res) in
  let nearby_results := nearby_result res in
  current_bearing ← current_bearing_at segment_bearings i;
  st' ← for_each (process_poi src_lat src_lon current_bearing)
                  nearby_results st;
  Ok (S i, st').

(** The counting loop of [_update_shared_details]:
    [side_counts = {"Left": 0, "Right": 0}] as the pair (left, right). *)
Definition count_side (counts : (nat * nat)%type) (e : GroupEntry)
  : (nat * nat)%type :=
  let '(l, r) := counts in
  match e with
  | (Left, _, _) => (S l, r)
  | (Right, _, _) => (l, S r)
  end.

Definition side_counts (shared_sources : list GroupEntry) : (nat * nat)%type :=
  fold_left count_side shared_sources (0, 0)%nat.

(** The body of [for row in self.data_to_write]. *)
Definition update_row (g : gmap (option string) (list GroupEntry)) (row : Row)
  : Row :=
  let shared_sources := group_of g (poi_name row) in
  let side' :=
    if (1 <? length shared_sources)%nat then
      let '(l, r) := side_counts shared_sources in
      if (l <? r)%nat then Right else Left
    else side row in
  {| source_lat := source_lat row; source_lon := source_lon row;
     poi_name := poi_name row; poi_lat := poi_lat row; poi_lon := poi_lon row;
     distance := distance row; bearing := bearing row;
     side := side';
     all_types := all_types row;
     shared_with :=
       Some (map (fun e : GroupEntry => let '(_, la, lo) := e in (la, lo))
                 shared_sources) |}.

Definition _update_shared_details (st : State) : State :=
  {| poi_groups := poi_groups st;
     seen_records := seen_records st;
     data_to_write := map (update_row (poi_groups st)) (data_to_write st) |}.

(** [POIProcessor(results).process_pois()]: the constructor computes the
    segment bearings, the method runs the two loops and the update
    pass. *)
Definition process_pois (results : list SearchResult) : result State :=
  let segment_bearings := _calculate_segment_bearings results in
  '(_, st) ← for_each (process_result segment_bearings) results
                      (0%nat, init_state);
  Ok (_update_shared_details st).

End SideDetector.

(** ** POI_Optimizer.py *)

(** The two text functions of the name merge: [str.lower] and
    [fuzz.ratio] of the fuzzywuzzy package (an integer score). *)
Record TextLib : Type := {
  str_lower : string -> string;
  fuzz_ratio : string -> string -> Z
}.

(** A member of a group of observations: the tuple
    [(poi_lat, poi_lon, bearing, distance, source_lat, source_lon)]. *)
Definition Member : Type := (Q * Q * Q * Q * Q * Q)%type.

Definition member_poi_lat (g : Member) : Q := let '(a, _, _, _, _, _) := g in a.
Definition member_poi_lon (g : Member) : Q := let '(_, a, _, _, _, _) := g in a.
Definition member_bearing (g : Member) : Q := let '(_, _, a, _, _, _) := g in a.
Definition member_distance (g : Member) : Q := let '(_, _, _, a, _, _) := g in a.
Definition member_source_lat (g : Member) : Q := let '(_, _, _, _, a, _) := g in a.
Definition member_source_lon (g : Member) : Q := let '(_, _, _, _, _, a) := g in a.

(** A row of the input CSV of [optimize_poi_positions] (the columns it
    reads) after the conversions [float(row[...])], which are taken to
    succeed, and a row of its output. *)
Record CsvRow : Type := {
  csv_poi_name : string;
  csv_source_lat : Q;
  csv_source_lon : Q;
  csv_poi_lat : Q;
  csv_poi_lon : Q;
  csv_distance : Q;
  csv_bearing : Q;
  csv_side : string
}.

Record OutRow : Type := {
  out_source_lat : Q;
  out_source_lon : Q;
  out_poi_name : string;
  optimal_lat : Q;
  optimal_lon : Q
}.

Definition Point : Type := (Q * Q)%type.

(** A dictionary in insertion order, as an association list with distinct
    keys.  [dict_append d k v] is
    [if k not in d: d[k] = []] followed by [d[k].append(v)]. *)
Fixpoint dict_append {V} (d : list (string * list V)) (k : string) (v : V)
  : list (string * list V) :=
  match d with
  | [] => [(k, [v])]
  | (k', l) :: d' =>
      if String.eqb k k' then (k', l ++ [v]) :: d'
      else (k', l) :: dict_append d' k v
  end.

(** List objects live in a store: a dictionary value is the address of a
    list, and two names may hold the same list. *)
Definition loc : Set := nat.

Definition deref (h : gmap loc (list Member)) (l : loc) : list Member :=
  default [] (h !! l).

(** [a.extend(b)] for the lists at addresses [a] and [b]. *)
Definition list_extend (h : gmap loc (list Member)) (a b : loc)
  : gmap loc (list Member) :=
  <[ a := deref h a ++ deref h b ]> h.

Record MergeState : Type := {
  merged_poi_groups : list (string * loc);
  processed_names : gset string;
  heap : gmap loc (list Member)
}.

Section Optimizer.

Variable M : MathLib.
Variable T : TextLib.

(** [np.linalg.norm] of a two-component vector. *)
Definition norm (p : Point) : Q := m_sqrt M (fst p * fst p + snd p * snd p).

Definition point_sub (a b : Point) : Point := (fst a - fst b, snd a - snd b).

(** [np.mean(coords, axis=0)]. *)
Definition mean_point (coords : list Point) : Point :=
  (mean (map fst coords), mean (map snd coords)).

(** One pass of the loop body of [geometric_median], up to the
    convergence test: the new estimate. *)
Definition new_median_of (tolerance : Q) (coords : list Point) (median : Point)
  : Point :=
  let distances := map (fun c => norm (point_sub c median)) coords in
  let nonzero := List.filter (fun cd : Point * Q => Qlt_bool tolerance (snd cd))
                        (combine coords distances) in
  let inv_distances := map (fun cd : Point * Q => 1 / snd cd) nonzero in
  let total := sum inv_distances in
  let weights := map (fun i => i / total) inv_distances in
  let weighted := combine weights (map fst nonzero) in
  (sum (map (fun wc : Q * Point => fst wc * fst (snd wc)) weighted),
   sum (map (fun wc : Q * Point => fst wc * snd (snd wc)) weighted)).

(** [for _ in range(n)]: the estimate returned and the number of loop
    bodies that were run. *)
Fixpoint geometric_median_loop (n : nat) (tolerance : Q) (coords : list Point)
         (median : Point) (done : nat) : Point * nat :=
  match n with
  | O => (median, done)
  | S n' =>
      let new_median := new_median_of tolerance coords median in
      if Qlt_bool (norm (point_sub new_median median)) tolerance
      then (new_median, S done)
      else geometric_median_loop n' tolerance coords new_median (S done)
  end.

Definition max_iterations : nat := 100.
Definition tolerance : Q := 1 # 100000.

(** [coords] are the rows of [np.array([latitudes, longitudes]).T]. *)
Definition geometric_median_run (coords : list Point) : Point * nat :=
  geometric_median_loop max_iterations tolerance coords (mean_point coords) 0.

Definition geometric_median (coords : list Point) : Point :=
  fst (geometric_median_run coords).

Definition calculate_average_distance (distances : list Q) : Q := mean distances.

Definition calculate_new_position (lat lon bearing distance : Q) : Q * Q :=
  let R := 6371000 in
  let bearing := m_radians M bearing in
  let lat1 := m_radians M lat in
  let lon1 := m_radians M lon in
  let lat2 := m_arcsin M (m_sin M lat1 * m_cos M (distance / R)
                          + m_cos M lat1 * m_sin M (distance / R)
                            * m_cos M bearing) in
  let lon2 := lon1 + m_atan2 M (m_sin M bearing * m_sin M (distance / R)
                                * m_cos M lat1)
                               (m_cos M (distance / R)
                                - m_sin M lat1 * m_sin M lat2) in
  (m_degrees M lat2, m_degrees M lon2).

(** [min(poi_group, key=lambda x: x[2])]: the running minimum is replaced
    only by a strictly smaller key, so the first minimal member wins. *)
Fixpoint min_by_bearing (best : Member) (rest : list Member) : Member :=
  match rest with
  | [] => best
  | x :: rest' =>
      if Qlt_bool (member_bearing x) (member_bearing best)
      then min_by_bearing x rest'
      else min_by_bearing best rest'
  end.

(** [min] of an empty sequence raises [ValueError]. *)
Definition find_min_bearing (poi_group : list Member) : result Member :=
  match poi_group with
  | [] => Raise ValueError
  | x :: rest => Ok (min_by_bearing x rest)
  end.

(** *** [group_similar_pois] *)

(** The body of [for other_name in poi_groups.keys()]; [seed_loc] is the
    list [merged_poi_groups[poi_name]]. *)
Definition merge_other (poi_name : string) (seed_loc : loc)
           (st : MergeState) (other : string * loc) : MergeState :=
  let '(other_name, other_loc) := other in
  if decide (other_name ∈ processed_names st) then st
  else
    let similarity :=
      fuzz_ratio T (str_lower T poi_name) (str_lower T other_name) in
    if (85 <? similarity)%Z then
      {| merged_poi_groups := merged_poi_groups st;
         processed_names := {[other_name]} ∪ processed_names st;
         heap := list_extend (heap st) seed_loc other_loc |}
    else st.

(** The body of [for poi_name in poi_groups.keys()].  The new key is not
    in [merged_poi_groups] yet, so the assignment adds it at the end. *)
Definition merge_name (poi_groups : list (string * loc))
           (st : MergeState) (entry : string * loc) : MergeState :=
  let '(poi_name, l) := entry in
  if decide (poi_name ∈ processed_names st) then st
  else
    fold_left (merge_other poi_name l) poi_groups
      {| merged_poi_groups := merged_poi_groups st ++ [(poi_name, l)];
         processed_names := {[poi_name]} ∪ processed_names st;
         heap := heap st |}.

(** [poi_groups] maps each name to the address of its list; the store
    [h] holds the lists.  The result is the returned dictionary and the
    store after the call (the lists of the input are extended in
    place). *)
Definition group_similar_pois (poi_groups : list (string * loc))
           (h : gmap loc (list Member)) : MergeState :=
  fold_left (merge_name poi_groups) poi_groups
    {| merged_poi_groups := []; processed_names := ∅; heap := h |}.

(** The contents of the returned dictionary. *)
Definition merged_contents (st : MergeState) : list (string * list Member) :=
  map (fun e : string * loc => (fst e, deref (heap st) (snd e)))
      (merged_poi_groups st).

(** *** [optimize_poi_positions] *)

Definition member_of_row (row : CsvRow) : Member :=
  (csv_poi_lat row, csv_poi_lon row, csv_bearing row, csv_distance row,
   csv_source_lat row, csv_source_lon row).

(** Step 1, the body of [for row in reader]. *)
Definition read_row (poi_groups : list (string * list Member)) (row : CsvRow)
  : list (string * list Member) :=
  let poi_name := csv_poi_name row in
  if String.eqb poi_name "" then poi_groups
  else
    let side := str_lower T (csv_side row) in
    if negb (String.eqb side "right") then poi_groups
    else dict_append poi_groups poi_name (member_of_row row).

Definition read_groups (rows : list CsvRow) : list (string * list Member) :=
  fold_left read_row rows [].

(** Step 2, the body of [for poi_name, group in poi_groups.items()]: the
    rows appended to [optimized_results]. *)
Definition optimize_group (entry : string * list Member) : result (list OutRow) :=
  let '(poi_name, group) := entry in
  let distances := map member_distance group in
  let average_distance := calculate_average_distance distances in
  min_bearing_point ← find_min_bearing group;
  let '(optimal_lat, optimal_lon) :=
    calculate_new_position (member_poi_lat min_bearing_point)
                           (member_poi_lon min_bearing_point)
                           (member_bearing min_bearing_point)
                           average_distance in
  Ok (map (fun g : Member =>
             {| out_source_lat := member_source_lat g;
                out_source_lon := member_source_lon g;
                out_poi_name := poi_name;
                optimal_lat := optimal_lat;
                optimal_lon := optimal_lon |}) group).

Definition optimize_step (optimized_results : list OutRow)
           (entry : string * list Member) : result (list OutRow) :=
  rows ← optimize_group entry;
  Ok (optimized_results ++ rows).

(** The rows written to the output CSV, for the rows read from the input
    CSV. *)
Definition optimize_poi_positions (rows : list CsvRow) : result (list OutRow) :=
  for_each optimize_step (read_groups rows) [].

End Optimizer.

(** ** Notions used to state the properties *)

(** The number of members of a group seen on side [s]. *)
Definition count_of (s : Side) (members : list GroupEntry) : nat :=
  length (List.filter (fun e : GroupEntry => bool_decide (fst (fst e) = s)) members).

(** The source coordinates of the members of a group, in order. *)
Definition sources_of (members : list GroupEntry) : list (Q * Q) :=
  map (fun e : GroupEntry => (snd (fst e), snd e)) members.

(** The identity key of an observation, when its coordinates are present. *)
Definition observation_key (res : SearchResult) (poi : Poi) : option Key :=
  match location_lat poi, location_lng poi with
  | Some plat, Some plon =>
      Some (lat (coordinate res), lon (coordinate res), plat, plon, name poi)
  | _, _ => None
  end.

(** An observation lacks a coordinate. *)
Definition missing_coordinate (poi : Poi) : Prop :=
  location_lat poi = None \/ location_lng poi = None.

(** The rows of a list that carry the key [k]. *)
Definition rows_with_key (k : Key) (rows : list Row) : list Row :=
  List.filter (fun r => key_eqb k (row_key r)) rows.

(** The rows of a list that carry the POI name [n]. *)
Definition rows_named (n : option string) (rows : list Row) : list Row :=
  List.filter (fun r => bool_decide (poi_name r = n)) rows.

(** The group entry appended when the row [r] is built. *)
Definition entry_of_row (r : Row) : GroupEntry :=
  (side r, source_lat r, source_lon r).

(** What links the three fields of the state while the rows are built:
    each key seen has exactly one row, keys not seen have none, and the
    group of a name lists the entries of its rows in order. *)
Definition consistent (st : State) : Prop :=
  (forall k, length (rows_with_key k (data_to_write st))
             = if key_mem k (seen_records st) then 1%nat else 0%nat)
  /\ (forall n, group_of (poi_groups st) n
                = map entry_of_row (rows_named n (data_to_write st))).

(** The sequence of estimates: the start, then one loop body after the
    other. *)
Fixpoint estimate_from (M : MathLib) (coords : list Point) (start : Point)
         (k : nat) : Point :=
  match k with
  | O => start
  | S k' => new_median_of M tolerance coords (estimate_from M coords start k')
  end.

(** The update number [k + 1] moved the estimate by less than the
    tolerance. *)
Definition small_move (M : MathLib) (coords : list Point) (start : Point)
           (k : nat) : bool :=
  Qlt_bool (norm M (point_sub (estimate_from M coords start (S k))
                              (estimate_from M coords start k)))
           tolerance.

(** [d.get(k)]. *)
Fixpoint dict_get {V} (d : list (string * V)) (k : string) : option V :=
  match d with
  | [] => None
  | (k', v) :: d' => if String.eqb k k' then Some v else dict_get d' k
  end.

(** The row passes the two filters of step 1. *)
Definition selected (T : TextLib) (row : CsvRow) : bool :=
  negb (String.eqb (csv_poi_name row) "")
  && String.eqb (str_lower T (csv_side row)) "right".

(** The member observations of the POI name [n]: the selected rows of that
    name, in input order. *)
Definition members_named (T : TextLib) (n : string) (rows : list CsvRow)
  : list Member :=
  map member_of_row
      (List.filter (fun r => selected T r && String.eqb (csv_poi_name r) n) rows).

(** The output rows that carry the POI name [n]. *)
Definition out_rows_named (n : string) (out : list OutRow) : list OutRow :=
  List.filter (fun o => String.eqb (out_poi_name o) n) out.

(** The output rows of one group placed at one position. *)
Definition rows_at (n : string) (pos : Q * Q) (group : list Member) : list OutRow :=
  map (fun g : Member =>
         {| out_source_lat := member_source_lat g;
            out_source_lon := member_source_lon g;
            out_poi_name := n;
            optimal_lat := fst pos;
            optimal_lon := snd pos |}) group.

(** The dictionary built by step 1 holds, for each name, its member
    observations; names without members are absent. *)
Definition groups_of (T : TextLib) (d : list (string * list Member))
           (rows : list CsvRow) : Prop :=
  NoDup (map fst d)
  /\ forall n, dict_get d n
               = match members_named T n rows with
                 | [] => None
                 | l => Some l
                 end.

(** The rows step 2 appends for one entry of the dictionary. *)
Definition group_rows (M : MathLib) (entry : string * list Member) : list OutRow :=
  match find_min_bearing (snd entry) with
  | Ok anchor =>
      rows_at (fst entry)
              (calculate_new_position M (member_poi_lat anchor)
                 (member_poi_lon anchor) (member_bearing anchor)
                 (mean (map member_distance (snd entry))))
              (snd entry)
  | Raise _ => []
  end.

(** Two names are merged when the ratio of their lower-cased forms exceeds
    85. *)
Definition similar (T : TextLib) (seed other : string) : bool :=
  (85 <? fuzz_ratio T (str_lower T seed) (str_lower T other))%Z.

(** The merge in the words of the specification: names are taken in
    encounter order; a name not yet processed starts a group, and every
    later name not yet processed and similar to it joins the group; the seed
    and the names that joined are then processed.  A group is its seed and
    the entries merged into it. *)
Fixpoint greedy_merge (T : TextLib) (processed : gset string)
         (entries : list (string * loc))
  : list ((string * loc) * list (string * loc)) :=
  match entries with
  | [] => []
  | seed :: later =>
      if decide (fst seed ∈ processed) then greedy_merge T processed later
      else
        let merged :=
          List.filter (fun e : string * loc =>
                         negb (bool_decide (fst e ∈ processed))
                         && similar T (fst seed) (fst e)) later in
        (seed, merged)
        :: greedy_merge T ({[fst seed]} ∪ list_to_set (map fst merged) ∪ processed)
                        later
  end.

(** The observations of a group: those of the seed, then those of the
    merged entries, in order. *)
Definition group_content (h : gmap loc (list Member))
           (g : (string * loc) * list (string * loc)) : list Member :=
  deref h (snd (fst g)) ++ concat (map (fun e : string * loc => deref h (snd e)) (snd g)).

(** The names of a group. *)
Definition group_entries (g : (string * loc) * list (string * loc))
  : list (string * loc) :=
  fst g :: snd g.

(** The entries the inner loop merges into the seed [s], for the names
    [P] processed when the loop starts. *)
Definition joining (T : TextLib) (P : gset string) (s : string)
           (xs : list (string * loc)) : list (string * loc) :=
  List.filter (fun e : string * loc =>
                 negb (bool_decide (fst e ∈ P)) && similar T s (fst e)) xs.

(** A name of a later group is not similar to the seed of an earlier
    group: it would have joined that group. *)
Definition dissimilar_to_seed (T : TextLib)
           (g g' : (string * loc) * list (string * loc)) : Prop :=
  forall x, In x (group_entries g') -> similar T (fst (fst g)) (fst x) = false.

(** The multiples of [2 ^ u]. *)
Definition on_grid (u : Z) (f : Q) : Prop :=
  exists k : Z, f == inject_Z k * 2 ^ u.

(** The distance from the boundaries of the half-plane beyond which the
    rounding of the code cannot change the side. *)
Definition side_margin : Q := 2 ^ (-43).

(** ** Data for the examples *)

(** An interpretation of the numeric library on which the definitions can
    be run: every function is the identity on its first argument.  It only
    serves to evaluate examples; every theorem below holds for all
    interpretations. *)
Definition identity_math : MathLib :=
  {| m_sin := fun x => x; m_cos := fun x => x; m_arcsin := fun x => x;
     m_atan2 := fun y _ => y; m_sqrt := fun x => x;
     m_radians := fun x => x; m_degrees := fun x => x |}.

(** [str.lower] on ASCII letters, and a text library that scores two
    strings 100 when they are equal and 0 otherwise; for examples only. *)
Definition lower_char (c : ascii) : ascii :=
  let n := nat_of_ascii c in
  if ((65 <=? n) && (n <=? 90))%nat then ascii_of_nat (n + 32) else c.

Fixpoint ascii_lower (s : string) : string :=
  match s with
  | EmptyString => EmptyString
  | String c s' => String (lower_char c) (ascii_lower s')
  end.

Definition equality_text : TextLib :=
  {| str_lower := ascii_lower;
     fuzz_ratio := fun a b => if String.eqb a b then 100%Z else 0%Z |}.

(** A row and three groups on which the update pass is run below: a POI
    seen once on each side, a POI seen three times on the right and twice
    on the left, and a POI seen once. *)
Definition cafe_row : Row :=
  {| source_lat := 10; source_lon := 106; poi_name := Some "Cafe"%string;
     poi_lat := 10 + (1 # 2000); poi_lon := 106 + (1 # 1000);
     distance := 122; bearing := 63; side := Right;
     all_types := "cafe"%string; shared_with := None |}.

Definition tied_groups : gmap (option string) (list GroupEntry) :=
  {[ Some "Cafe"%string := [ (Right, 10, 106); (Left, 10 + (1 # 1000), 106) ] ]}.

Definition majority_groups : gmap (option string) (list GroupEntry) :=
  {[ Some "Cafe"%string :=
       [ (Right, 10, 106); (Left, 11, 106); (Right, 12, 106);
         (Left, 13, 106); (Right, 14, 106) ] ]}.

Definition single_groups : gmap (option string) (list GroupEntry) :=
  {[ Some "Cafe"%string := [ (Right, 10, 106) ] ]}.

(** Inputs on which the aggregator is run below. *)
Definition shop : Poi :=
  {| name := Some "Shop"%string;
     location_lat := Some (10 + (1 # 2000)); location_lng := Some (106 + (1 # 1000));
     types := ["store"%string] |}.

Definition unlocated : Poi :=
  {| name := Some "Kiosk"%string; location_lat := None; location_lng := None;
     types := [] |}.

Definition first_point : Coordinate := {| lat := 10; lon := 106 |}.
Definition second_point : Coordinate := {| lat := 10 + (1 # 1000); lon := 106 |}.

(** The same observation twice at the first point of a two-point route. *)
Definition duplicate_route : list SearchResult :=
  [ {| coordinate := first_point; nearby_result := [shop; shop] |};
    {| coordinate := second_point; nearby_result := [] |} ].

(** An observation without a location, followed by complete ones. *)
Definition unlocated_route : list SearchResult :=
  [ {| coordinate := first_point; nearby_result := [unlocated; shop] |};
    {| coordinate := second_point; nearby_result := [shop] |} ].

(** The corners of a square of side 2 around the point (1, 1). *)
Definition square : list Point := [ (0, 0); (2, 0); (2, 2); (0, 2) ].

(** Four rows of an input CSV: two observations of "Cafe" on the right, one
    on the left, and one observation of "Bank". *)
Definition sample_rows : list CsvRow :=
  [ {| csv_poi_name := "Cafe"; csv_source_lat := 10; csv_source_lon := 106;
       csv_poi_lat := 10 + (1 # 2000); csv_poi_lon := 106 + (1 # 1000);
       csv_distance := 120; csv_bearing := 63; csv_side := "Right" |};
    {| csv_poi_name := "Bank"; csv_source_lat := 10; csv_source_lon := 106;
       csv_poi_lat := 10 + (1 # 4000); csv_poi_lon := 106 + (1 # 500);
       csv_distance := 220; csv_bearing := 83; csv_side := "right" |};
    {| csv_poi_name := "Cafe"; csv_source_lat := 10 + (1 # 1000);
       csv_source_lon := 106;
       csv_poi_lat := 10 + (1 # 2000); csv_poi_lon := 106 + (1 # 1000);
       csv_distance := 130; csv_bearing := 117; csv_side := "Left" |};
    {| csv_poi_name := "Cafe"; csv_source_lat := 10 + (1 # 500);
       csv_source_lon := 106;
       csv_poi_lat := 10 + (1 # 2000); csv_poi_lon := 106 + (1 # 1000);
       csv_distance := 200; csv_bearing := 40; csv_side := "RIGHT" |} ]%string.

(** Observations told apart by their POI latitude. *)
Definition observation (k : Z) : Member := (inject_Z k, 106, 0, 100, 10, 106).

(** A dictionary of three names whose lists are three distinct objects:
    two spellings of one name that differ by case only, and another
    name. *)
Definition name_dict : list (string * loc) :=
  [ ("Coffee House"%string, 0%nat); ("Gas Station"%string, 1%nat);
    ("coffee house"%string, 2%nat) ].

Definition name_store : gmap loc (list Member) :=
  list_to_map [ (0%nat, [observation 1]); (1%nat, [observation 2]);
                (2%nat, [observation 3; observation 4]) ].

(** The same names when "Coffee House" and "Gas Station" hold one and the
    same list object. *)
Definition aliased_dict : list (string * loc) :=
  [ ("Coffee House"%string, 0%nat); ("coffee house"%string, 2%nat);
    ("Gas Station"%string, 0%nat) ].


(** ** Further functions and notions *)

(** The keys of the observations of the input, in the order in which
    [process_pois] meets them. *)
Definition observation_keys (results : list SearchResult) : list Key :=
  flat_map (fun res =>
              flat_map (fun poi => match observation_key res poi with
                                   | Some k => [k]
                                   | None => []
                                   end) (nearby_result res)) results.

(** The first occurrence of each key of a list, in order, for the keys
    [seen] before. *)
Fixpoint first_occurrences (seen ks : list Key) : list Key :=
  match ks with
  | [] => []
  | k :: ks' =>
      if key_mem k seen then first_occurrences seen ks'
      else k :: first_occurrences (k :: seen) ks'
  end.

(** [process_pois] called on an object whose fields are in the state [st]
    (the constructor leaves them in [init_state]); the segment bearings are
    those the constructor computed from [results]. *)
Definition process_pois_from (M : MathLib) (results : list SearchResult)
           (st : State) : result State :=
  let segment_bearings := _calculate_segment_bearings M results in
  '(_, st') ← for_each (process_result M segment_bearings) results (0%nat, st);
  Ok (_update_shared_details st').

(** The outcome of [weighted_average_position]: a position, each component
    a number or [None] when numpy answers NaN or an infinity; the
    [ZeroDivisionError] of [1 / (d + epsilon)]; or the [ValueError] of two
    arrays whose shapes cannot be broadcast together. *)
Inductive weighted_result : Type :=
| Position (weighted_lat weighted_lon : option Q)
| ZeroDivision
| CannotBroadcast.

(** [[1 / (d + epsilon) for d in distances]], on Python floats. *)
Fixpoint weights_of (distances : list Q) (epsilon : Q) : option (list Q) :=
  match distances with
  | [] => Some []
  | d :: ds =>
      if Qeq_bool (d + epsilon) 0 then None
      else option_map (cons (1 / (d + epsilon))) (weights_of ds epsilon)
  end.

(** [np.array(xs) * ws] for one-dimensional operands: element by element
    when the lengths agree, a single element stretched over the other
    operand, an error otherwise. *)
Definition broadcast_mul (xs ws : list Q) : option (list Q) :=
  if (length xs =? length ws)%nat
  then Some (map (fun xw : Q * Q => fst xw * snd xw) (combine xs ws))
  else match xs, ws with
       | [x], _ => Some (map (fun w => x * w) ws)
       | _, [w] => Some (map (fun x => x * w) xs)
       | _, _ => None
       end.

(** The quotient of two numpy numbers: no exception, and no finite number
    when the divisor is zero. *)
Definition np_divide (a b : Q) : option Q :=
  if Qeq_bool b 0 then None else Some (a / b).

Definition weighted_average_position (latitudes longitudes distances : list Q)
           (epsilon : Q) : weighted_result :=
  match weights_of distances epsilon with
  | None => ZeroDivision
  | Some weights =>
      match broadcast_mul latitudes weights with
      | None => CannotBroadcast
      | Some lat_products =>
          let weighted_lat := np_divide (sum lat_products) (sum weights) in
          match broadcast_mul longitudes weights with
          | None => CannotBroadcast
          | Some lon_products =>
              Position weighted_lat
                       (np_divide (sum lon_products) (sum weights))
          end
      end
  end.

(** The default value of the parameter [epsilon]. *)
Definition default_epsilon : Q := 1 # 100000.

(** The member [c] is farther than the tolerance from the estimate. *)
Definition far_from (M : MathLib) (median c : Point) : bool :=
  Qlt_bool tolerance (norm M (point_sub c median)).

(** A row carries the distance and the bearing of its own coordinates. *)
Definition measured (M : MathLib) (r : Row) : Prop :=
  haversine_and_bearing M (source_lat r) (source_lon r)
                        (Some (poi_lat r)) (Some (poi_lon r))
  = Ok (distance r, bearing r).

(** The members of a dictionary of groups, each with the name of its
    group. *)
Definition labelled_members (d : list (string * list Member))
  : list (Member * string) :=
  flat_map (fun e : string * list Member => map (fun m => (m, fst e)) (snd e)) d.



(** * Properties *)

(** ** The side of a POI *)

Lemma fmod_unique (x r : Q) (k : Z) :
  x == inject_Z k * 360 + r -> 0 <= r -> r < 360 -> fmod x 360 == r.
Proof.
  intros Hx H0 H1. unfold fmod.
  assert (Hk : Qfloor (x / 360) = k).
  { assert (Hd : x / 360 == inject_Z k + r / 360) by (rewrite Hx; field).
    assert (Hlo : inject_Z k <= x / 360).
    { rewrite Hd. assert (0 <= r / 360) by (apply Qle_shift_div_l; lra). lra. }
    assert (Hhi : x / 360 < inject_Z (k + 1)).
    { rewrite Hd, inject_Z_plus.
      assert (r / 360 < 1) by (apply Qlt_shift_div_r; lra).
      change (inject_Z 1) with 1. lra. }
    apply Z.le_antisymm.
    - apply Z.lt_succ_r. rewrite Zlt_Qlt.
      eapply Qle_lt_trans; [apply Qfloor_le|]. exact Hhi.
    - apply Qfloor_resp_le in Hlo. rewrite Qfloor_Z in Hlo. exact Hlo. }
  rewrite Hk, Hx. ring.
Qed.

Lemma fmod_range (x : Q) : 0 <= fmod x 360 /\ fmod x 360 < 360.
Proof.
  unfold fmod.
  pose proof (Qfloor_le (x / 360)) as Hlo.
  pose proof (Qlt_floor (x / 360)) as Hhi.
  rewrite inject_Z_plus in Hhi. change (inject_Z 1) with 1 in Hhi.
  set (f := inject_Z (Qfloor (x / 360))) in *.
  assert (Hx : x == 360 * (x / 360)) by field.
  split.
  - assert (360 * f <= 360 * (x / 360)) by (apply Qmult_le_l; lra). lra.
  - assert (360 * (x / 360) < 360 * (f + 1)) by (apply Qmult_lt_l; lra). lra.
Qed.

(** *** Rounding to the nearest double *)

Lemma pow2_pos (k : Z) : 0 < 2 ^ k.
Proof. apply Qpower_0_lt. reflexivity. Qed.

Lemma pow2_succ (k : Z) : 2 ^ (k + 1) == 2 * 2 ^ k.
Proof. rewrite Qpower_plus by discriminate. change (2 ^ 1) with 2. ring. Qed.

Lemma pow2_pred (k : Z) : 2 * 2 ^ (k - 1) == 2 ^ k.
Proof. rewrite <- pow2_succ. replace (k - 1 + 1)%Z with k by lia. reflexivity. Qed.

Lemma pow2_inject (k : Z) : (0 <= k)%Z -> 2 ^ k == inject_Z (2 ^ k).
Proof. intros H. rewrite Zpower_Qpower by exact H. reflexivity. Qed.

Lemma pow2_le (j k : Z) : (j <= k)%Z -> 2 ^ j <= 2 ^ k.
Proof. intros H. apply Qpower_le_compat_l; [exact H|discriminate]. Qed.

Lemma pow2_lt_inv (j k : Z) : 2 ^ j < 2 ^ k -> (j < k)%Z.
Proof. intros H. apply (Qpower_lt_compat_l_inv 2); [exact H|reflexivity]. Qed.

Lemma log2_bounds (a : Z) :
  (0 < a)%Z -> 2 ^ Z.log2 a <= inject_Z a /\ inject_Z a < 2 * 2 ^ Z.log2 a.
Proof.
  intros Ha. destruct (Z.log2_spec a Ha) as [H1 H2].
  pose proof (Z.log2_nonneg a) as Hn.
  rewrite <- pow2_succ. rewrite !pow2_inject by lia.
  rewrite <- Zle_Qle, <- Zlt_Qlt. split; [exact H1|].
  replace (Z.log2 a + 1)%Z with (Z.succ (Z.log2 a)) by lia. exact H2.
Qed.

Lemma ilog2_spec (x : Q) :
  0 < x -> 2 ^ Double.ilog2 x <= x /\ x < 2 ^ (Double.ilog2 x + 1).
Proof.
  intros Hx. unfold Double.ilog2. cbv zeta.
  destruct x as [a b]. cbn [Qnum Qden].
  assert (Ha : (0 < a)%Z).
  { unfold Qlt in Hx. cbn in Hx. lia. }
  destruct (log2_bounds a Ha) as [A1 A2].
  destruct (log2_bounds (Zpos b) eq_refl) as [B1 B2].
  set (la := Z.log2 a) in *. set (lb := Z.log2 (Zpos b)) in *.
  pose proof (pow2_pos la) as PA. pose proof (pow2_pos lb) as PB.
  assert (Hq : a # b == inject_Z a / inject_Z (Zpos b)) by apply Qmake_Qdiv.
  assert (Hb : 0 < inject_Z (Zpos b)) by reflexivity.
  assert (E0 : 2 ^ (la - lb) == 2 ^ la / 2 ^ lb)
    by (apply Qpower_minus; discriminate).
  assert (Hup : a # b < 2 ^ (la - lb + 1)).
  { rewrite pow2_succ, E0, Hq. apply Qlt_shift_div_r; [exact Hb|].
    unfold Qdiv. 
    assert (E : 2 * (2 ^ la * / 2 ^ lb) * inject_Z (Z.pos b)
                == (2 * 2 ^ la) * (inject_Z (Z.pos b) / 2 ^ lb))
      by (field; intros H; rewrite H in PB; discriminate PB).
    rewrite E.
    assert (1 <= inject_Z (Z.pos b) / 2 ^ lb).
    { apply Qle_shift_div_l; [exact PB|]. lra. }
    nra. }
  assert (Hlow : 2 ^ (la - lb - 1) <= a # b).
  { assert (E : 2 ^ (la - lb - 1) == 2 ^ la / (2 * 2 ^ lb)).
    { rewrite <- pow2_succ.
      replace (la - lb - 1)%Z with (la - (lb + 1))%Z by lia.
      apply Qpower_minus. discriminate. }
    rewrite E, Hq. apply Qle_shift_div_l; [exact Hb|].
    assert (Ht : 2 ^ la / (2 * 2 ^ lb) * (2 * 2 ^ lb) == 2 ^ la)
      by (field; intros H; rewrite H in PB; discriminate PB).
    assert (Hp : 0 < 2 ^ la / (2 * 2 ^ lb))
      by (apply Qlt_shift_div_l; lra).
    nra. }
  destruct (Qle_bool (2 ^ (la - lb)) (a # b)) eqn:E.
  - apply Qle_bool_iff in E. split; assumption.
  - assert (Hlt : a # b < 2 ^ (la - lb)).
    { apply Qnot_le_lt. intros H. apply Qle_bool_iff in H. congruence. }
    split; [exact Hlow|].
    replace (la - lb - 1 + 1)%Z with (la - lb)%Z by lia. exact Hlt.
Qed.

Lemma ilog2_unique (x : Q) (e : Z) :
  2 ^ e <= x -> x < 2 ^ (e + 1) -> Double.ilog2 x = e.
Proof.
  intros H1 H2.
  assert (Hx : 0 < x) by (pose proof (pow2_pos e); lra).
  destruct (ilog2_spec x Hx) as [H3 H4].
  assert ((e < Double.ilog2 x + 1)%Z) by (apply pow2_lt_inv; lra).
  assert ((Double.ilog2 x < e + 1)%Z) by (apply pow2_lt_inv; lra).
  lia.
Qed.

Lemma ilog2_mono (x y : Q) :
  0 < x -> x <= y -> (Double.ilog2 x <= Double.ilog2 y)%Z.
Proof.
  intros Hx Hxy.
  destruct (ilog2_spec x Hx) as [H1 _].
  destruct (ilog2_spec y) as [_ H2]; [lra|].
  assert ((Double.ilog2 x < Double.ilog2 y + 1)%Z) by (apply pow2_lt_inv; lra).
  lia.
Qed.

Lemma round_half_even_bounds (m : Q) :
  (Qfloor m <= Double.round_half_even m)%Z
  /\ (Double.round_half_even m <= Qceiling m)%Z.
Proof.
  unfold Double.round_half_even. cbv zeta.
  pose proof (Qfloor_le m) as Hf. pose proof (Qle_ceiling m) as Hc.
  assert (Hfc : (Qfloor m <= Qceiling m)%Z)
    by (rewrite Zle_Qle; apply Qle_floor_ceiling).
  assert (Hup : 0 < m - inject_Z (Qfloor m) -> (Qfloor m + 1 <= Qceiling m)%Z).
  { intros H. assert (Hlt : (Qfloor m < Qceiling m)%Z); [|lia].
    rewrite Zlt_Qlt. lra. }
  destruct (Qcompare_spec (m - inject_Z (Qfloor m)) (1 # 2)) as [E|E|E].
  - destruct (Z.even (Qfloor m)); split; try lia. apply Hup. lra.
  - split; lia.
  - split; [lia|]. apply Hup. lra.
Qed.

Lemma round_half_even_ge (m : Q) (k : Z) :
  inject_Z k <= m -> (k <= Double.round_half_even m)%Z.
Proof.
  intros H. destruct (round_half_even_bounds m) as [H1 _].
  apply Qfloor_resp_le in H. rewrite Qfloor_Z in H. lia.
Qed.

Lemma round_half_even_le (m : Q) (k : Z) :
  m <= inject_Z k -> (Double.round_half_even m <= k)%Z.
Proof.
  intros H. destruct (round_half_even_bounds m) as [_ H1].
  apply Qceiling_resp_le in H. rewrite Qceiling_Z in H. lia.
Qed.

Lemma on_grid_finer (u u' : Z) (f : Q) :
  (u <= u')%Z -> on_grid u' f -> on_grid u f.
Proof.
  intros Hu [k Hk]. exists (k * 2 ^ (u' - u))%Z.
  rewrite Hk, inject_Z_mult, <- pow2_inject by lia.
  replace u' with ((u' - u) + u)%Z at 1 by lia.
  rewrite Qpower_plus by discriminate. ring.
Qed.

Lemma nearest_positive_on_grid (x : Q) :
  on_grid (Double.ulp_exponent x) (Double.nearest_positive x).
Proof. eexists. reflexivity. Qed.

Lemma ulp_exponent_mono (x y : Q) :
  0 < x -> x <= y -> (Double.ulp_exponent x <= Double.ulp_exponent y)%Z.
Proof.
  intros Hx Hxy. unfold Double.ulp_exponent.
  pose proof (ilog2_mono x y Hx Hxy). lia.
Qed.

Lemma nearest_positive_nonneg (x : Q) : 0 < x -> 0 <= Double.nearest_positive x.
Proof.
  intros Hx. unfold Double.nearest_positive. cbv zeta.
  pose proof (pow2_pos (Double.ulp_exponent x)) as Hp.
  assert (H : (0 <= Double.round_half_even (x / 2 ^ Double.ulp_exponent x))%Z).
  { apply round_half_even_ge. apply Qle_shift_div_l; [exact Hp|].
    change (inject_Z 0) with 0. lra. }
  rewrite Zle_Qle in H. change (inject_Z 0) with 0 in H. nra.
Qed.

(** A double at or below [x] is at or below the double nearest to [x]. *)
Lemma nearest_positive_lower (f x : Q) :
  0 < f -> f <= x -> on_grid (Double.ulp_exponent f) f ->
  f <= Double.nearest_positive x.
Proof.
  intros Hf Hfx [k Hk].
  assert (Hx : 0 < x) by lra.
  pose proof (ulp_exponent_mono f x Hf Hfx) as Hu.
  unfold Double.nearest_positive. cbv zeta.
  set (u := Double.ulp_exponent x) in *.
  pose proof (pow2_pos u) as Hp.
  destruct (Z.eq_dec (Double.ulp_exponent f) u) as [E|E].
  - rewrite E in Hk.
    assert (H : (k <= Double.round_half_even (x / 2 ^ u))%Z).
    { apply round_half_even_ge. apply Qle_shift_div_l; [exact Hp|].
      rewrite <- Hk. exact Hfx. }
    rewrite Zle_Qle in H. rewrite Hk. nra.
  - destruct (ilog2_spec f Hf) as [_ Hf2].
    destruct (ilog2_spec x Hx) as [Hx1 _].
    unfold Double.ulp_exponent in Hu, E. subst u.
    unfold Double.ulp_exponent in *. unfold Double.prec, Double.emin in *.
    assert (Hux : Z.max (Double.ilog2 x - (53 - 1)) (-1074)
                  = (Double.ilog2 x - 52)%Z) by lia.
    assert (Hlt : (Double.ilog2 f + 1 <= Double.ilog2 x)%Z) by lia.
    rewrite Hux in *.
    assert (Hsplit : 2 ^ Double.ilog2 x
                     == inject_Z (2 ^ 52) * 2 ^ (Double.ilog2 x - 52)).
    { rewrite <- pow2_inject by lia. rewrite <- Qpower_plus by discriminate.
      replace (52 + (Double.ilog2 x - 52))%Z with (Double.ilog2 x) by lia.
      reflexivity. }
    assert (H : (2 ^ 52 <= Double.round_half_even
                             (x / 2 ^ (Double.ilog2 x - 52)))%Z).
    { apply round_half_even_ge. apply Qle_shift_div_l; [exact Hp|].
      rewrite <- Hsplit. exact Hx1. }
    rewrite Zle_Qle in H.
    pose proof (pow2_le _ _ Hlt) as Hle.
    nra.
Qed.

(** A double at or above [x] is at or above the double nearest to [x]. *)
Lemma nearest_positive_upper (f x : Q) :
  0 < x -> x <= f -> on_grid (Double.ulp_exponent f) f ->
  Double.nearest_positive x <= f.
Proof.
  intros Hx Hxf Hg.
  pose proof (ulp_exponent_mono x f Hx Hxf) as Hu.
  destruct (on_grid_finer _ _ f Hu Hg) as [k Hk].
  unfold Double.nearest_positive. cbv zeta.
  set (u := Double.ulp_exponent x) in *.
  pose proof (pow2_pos u) as Hp.
  assert (H : (Double.round_half_even (x / 2 ^ u) <= k)%Z).
  { apply round_half_even_le. apply Qle_shift_div_r; [exact Hp|].
    rewrite <- Hk. exact Hxf. }
  rewrite Zle_Qle in H. rewrite Hk. nra.
Qed.

Lemma Qlt_bool_cases (x y : Q) :
  (Qlt_bool x y = true /\ x < y) \/ (Qlt_bool x y = false /\ y <= x).
Proof.
  unfold Qlt_bool. destruct (Qle_bool y x) eqn:E.
  - right. split; [reflexivity|]. now apply Qle_bool_iff.
  - left. split; [reflexivity|]. apply Qnot_le_lt. intros H.
    apply Qle_bool_iff in H. congruence.
Qed.

Lemma nearest_cases (x : Q) :
  (x == 0 /\ Double.nearest x = 0)
  \/ (x < 0 /\ Double.nearest x = - Double.nearest_positive (- x))
  \/ (0 < x /\ Double.nearest x = Double.nearest_positive x).
Proof.
  unfold Double.nearest.
  destruct (Qeq_bool x 0) eqn:E0.
  - left. split; [now apply Qeq_bool_iff|reflexivity].
  - assert (Hne : ~ x == 0) by (intros H; apply Qeq_bool_iff in H; congruence).
    destruct (Qlt_bool_cases x 0) as [[-> H]|[-> H]].
    + right. left. split; [exact H|reflexivity].
    + right. right. split; [lra|reflexivity].
Qed.

(** What [is_double] says of a number: it is the nearest double to itself,
    and it is below the overflow threshold. *)
Lemma is_double_nearest (f : Q) :
  Double.is_double f = true ->
  Double.nearest f == f /\ Qabs f < 2 ^ Double.emax.
Proof.
  unfold Double.is_double, Double.round. cbv zeta.
  destruct (Qle_bool (2 ^ Double.emax) (Qabs (Double.nearest f))) eqn:E;
    [discriminate|].
  intros H. apply Qeq_bool_iff in H. split; [exact H|].
  rewrite <- H. apply Qnot_le_lt. intros Hle. apply Qle_bool_iff in Hle.
  congruence.
Qed.

Lemma is_double_grid_pos (f : Q) :
  Double.is_double f = true -> 0 < f -> on_grid (Double.ulp_exponent f) f.
Proof.
  intros H Hf. destruct (is_double_nearest f H) as [Hn _].
  destruct (nearest_cases f) as [[H0 _]|[[H0 _]|[_ E]]]; try lra.
  rewrite E in Hn. destruct (nearest_positive_on_grid f) as [k Hk].
  exists k. rewrite <- Hk. symmetry. exact Hn.
Qed.

Lemma is_double_grid_neg (f : Q) :
  Double.is_double f = true -> f < 0 ->
  on_grid (Double.ulp_exponent (- f)) (- f).
Proof.
  intros H Hf. destruct (is_double_nearest f H) as [Hn _].
  destruct (nearest_cases f) as [[H0 _]|[[_ E]|[H0 _]]]; try lra.
  rewrite E in Hn. destruct (nearest_positive_on_grid (- f)) as [k Hk].
  exists k. rewrite <- Hk. lra.
Qed.

Lemma nearest_upper (x hi : Q) :
  Double.is_double hi = true -> x <= hi -> Double.nearest x <= hi.
Proof.
  intros Hd Hx.
  destruct (nearest_cases x) as [[H0 ->]|[[H0 ->]|[H0 ->]]].
  - lra.
  - assert (Hn : 0 <= Double.nearest_positive (- x))
      by (apply nearest_positive_nonneg; lra).
    destruct (Qlt_le_dec hi 0) as [Hneg|Hpos]; [|lra].
    assert (Hl : - hi <= Double.nearest_positive (- x)).
    { apply nearest_positive_lower; [lra|lra|].
      now apply is_double_grid_neg. }
    lra.
  - pose proof (nearest_positive_upper hi x H0 Hx) as Hu.
    apply Hu. apply is_double_grid_pos; [exact Hd|lra].
Qed.

Lemma nearest_lower (x lo : Q) :
  Double.is_double lo = true -> lo <= x -> lo <= Double.nearest x.
Proof.
  intros Hd Hx.
  destruct (nearest_cases x) as [[H0 ->]|[[H0 ->]|[H0 ->]]].
  - lra.
  - assert (Hu : Double.nearest_positive (- x) <= - lo).
    { apply nearest_positive_upper; [lra|lra|].
      apply is_double_grid_neg; [exact Hd|lra]. }
    lra.
  - pose proof (nearest_positive_nonneg x H0) as Hn.
    destruct (Qlt_le_dec 0 lo) as [Hpos|Hneg]; [|lra].
    apply nearest_positive_lower; [exact Hpos|exact Hx|].
    now apply is_double_grid_pos.
Qed.

(** Rounding is monotone around the doubles: an exact result between two
    doubles is rounded to a double between them (and not to an infinity). *)
Lemma round_between (lo hi x : Q) :
  Double.is_double lo = true -> Double.is_double hi = true ->
  lo <= x -> x <= hi ->
  exists y, Double.round x = Some y /\ lo <= y /\ y <= hi.
Proof.
  intros Hlo Hhi H1 H2.
  pose proof (nearest_lower x lo Hlo H1) as Hl.
  pose proof (nearest_upper x hi Hhi H2) as Hu.
  destruct (is_double_nearest lo Hlo) as [_ Blo].
  destruct (is_double_nearest hi Hhi) as [_ Bhi].
  apply Qabs_Qlt_condition in Blo, Bhi.
  exists (Double.nearest x). split; [|split; assumption].
  unfold Double.round. cbv zeta.
  destruct (Qle_bool (2 ^ Double.emax) (Qabs (Double.nearest x))) eqn:E;
    [|reflexivity].
  apply Qle_bool_iff in E.
  assert (Qabs (Double.nearest x) < 2 ^ Double.emax); [|lra].
  apply Qabs_Qlt_condition. lra.
Qed.

(** On a float that is not negative, [% 360] is the exact remainder. *)
Lemma rem_nonneg (s : Q) :
  0 <= s -> exists m, Double.rem s 360 = Some m /\ m == fmod s 360.
Proof.
  intros Hs. unfold Double.rem. cbv zeta.
  assert (Ht : Double.Qtrunc (s / 360) = Qfloor (s / 360)).
  { assert (Hq : 0 <= s / 360) by (apply Qle_shift_div_l; lra).
    destruct (s / 360) as [a b]. unfold Double.Qtrunc, Qfloor. cbn [Qnum Qden].
    apply Z.quot_div_nonneg; [|reflexivity].
    unfold Qle in Hq. cbn in Hq. lia. }
  rewrite Ht. fold (fmod s 360).
  destruct (fmod_range s) as [H0 H1].
  destruct (Qeq_bool (fmod s 360) 0) eqn:E.
  - apply Qeq_bool_iff in E. exists 0. split; [reflexivity|]. now symmetry.
  - assert (E1 : Qlt_bool 360 0 = false) by reflexivity.
    assert (E2 : Qlt_bool (fmod s 360) 0 = false)
      by (destruct (Qlt_bool_cases (fmod s 360) 0) as [[_ H]|[H _]]; [lra|exact H]).
    rewrite E1, E2. cbn [xorb]. eexists. split; reflexivity.
Qed.

(** The side for a difference of bearings between two doubles [lo] and [hi]
    that lie, once 360 is added, in one and the same turn [k]: the value
    compared with 0 and 180 lies between the images of [lo] and [hi]. *)
Lemma determine_side_window (p r lo hi : Q) (k : Z) :
  Double.is_double lo = true -> Double.is_double hi = true ->
  Double.is_double (lo + 360) = true -> Double.is_double (hi + 360) = true ->
  lo <= p - r -> p - r <= hi ->
  0 <= lo + 360 ->
  inject_Z k * 360 <= lo + 360 -> hi + 360 < inject_Z k * 360 + 360 ->
  exists delta,
    lo + 360 - inject_Z k * 360 <= delta
    /\ delta <= hi + 360 - inject_Z k * 360
    /\ determine_side p r
       = (if Qle_bool 0 delta && Qle_bool delta 180 then Right else Left).
Proof.
  intros Dlo Dhi Dlo' Dhi' H1 H2 H0 Hk1 Hk2.
  destruct (round_between lo hi (p - r) Dlo Dhi H1 H2) as (d & Ed & Hd1 & Hd2).
  destruct (round_between (lo + 360) (hi + 360) (d + 360) Dlo' Dhi')
    as (s & Es & Hs1 & Hs2); [lra|lra|].
  destruct (rem_nonneg s) as (m & Em & Hm); [lra|].
  assert (Hf : fmod s 360 == s - inject_Z k * 360).
  { apply (fmod_unique _ _ k); [ring|lra|lra]. }
  exists m. split; [lra|]. split; [lra|].
  unfold determine_side. cbv zeta. rewrite Ed. cbn [mbind option_bind].
  rewrite Es. cbn [mbind option_bind]. rewrite Em. reflexivity.
Qed.

Lemma determine_side_window_Right (p r lo hi : Q) (k : Z) :
  Double.is_double lo = true -> Double.is_double hi = true ->
  Double.is_double (lo + 360) = true -> Double.is_double (hi + 360) = true ->
  lo <= p - r -> p - r <= hi ->
  0 <= lo + 360 ->
  inject_Z k * 360 <= lo + 360 -> hi + 360 <= inject_Z k * 360 + 180 ->
  determine_side p r = Right.
Proof.
  intros Dlo Dhi Dlo' Dhi' H1 H2 H0 Hk1 Hk2.
  destruct (determine_side_window p r lo hi k) as (delta & Ha & Hb & ->);
    try assumption; [lra|].
  assert (E1 : Qle_bool 0 delta = true) by (apply Qle_bool_iff; lra).
  assert (E2 : Qle_bool delta 180 = true) by (apply Qle_bool_iff; lra).
  now rewrite E1, E2.
Qed.

Lemma determine_side_window_Left (p r lo hi : Q) (k : Z) :
  Double.is_double lo = true -> Double.is_double hi = true ->
  Double.is_double (lo + 360) = true -> Double.is_double (hi + 360) = true ->
  lo <= p - r -> p - r <= hi ->
  0 <= lo + 360 ->
  inject_Z k * 360 + 180 < lo + 360 -> hi + 360 < inject_Z k * 360 + 360 ->
  determine_side p r = Left.
Proof.
  intros Dlo Dhi Dlo' Dhi' H1 H2 H0 Hk1 Hk2.
  destruct (determine_side_window p r lo hi k) as (delta & Ha & Hb & ->);
    try assumption; [lra|].
  assert (E2 : Qle_bool delta 180 = false).
  { destruct (Qle_bool delta 180) eqn:E; [|reflexivity].
    apply Qle_bool_iff in E. lra. }
  rewrite E2. now rewrite andb_false_r.
Qed.

(** The exact half-plane test decides the side when the difference of the
    bearings is within one turn. *)
Lemma determine_side_exact_Right (p r : Q) :
  -360 <= p - r -> p - r <= 360 ->
  0 <= fmod (p - r + 360) 360 -> fmod (p - r + 360) 360 <= 180 ->
  determine_side p r = Right.
Proof.
  intros H1 H2 _ Hd.
  destruct (Qlt_le_dec (p - r) 0) as [Hneg|Hpos].
  - assert (Hf : fmod (p - r + 360) 360 == p - r + 360).
    { apply (fmod_unique _ _ 0); [ring|lra|lra]. }
    rewrite Hf in Hd.
    apply (determine_side_window_Right p r (-360) (-180) 0);
      try reflexivity; try lra; vm_compute; intros H; discriminate H.
  - destruct (Qlt_le_dec (p - r) 360) as [Hlt|Hge].
    + assert (Hf : fmod (p - r + 360) 360 == p - r).
      { apply (fmod_unique _ _ 1); [ring|lra|lra]. }
      rewrite Hf in Hd.
      apply (determine_side_window_Right p r 0 180 1);
        try reflexivity; try lra; vm_compute; intros H; discriminate H.
    + apply (determine_side_window_Right p r 360 360 2);
        try reflexivity; try lra; vm_compute; intros H; discriminate H.
Qed.

Lemma determine_side_exact_Left (p r : Q) :
  -360 <= p - r -> p - r <= 360 ->
  180 + side_margin <= fmod (p - r + 360) 360 ->
  fmod (p - r + 360) 360 <= 360 - side_margin ->
  determine_side p r = Left.
Proof.
  intros H1 H2 Hd1 Hd2.
  assert (Hm : side_margin == 1 # 8796093022208) by reflexivity.
  destruct (Qlt_le_dec (p - r) 0) as [Hneg|Hpos].
  - assert (Hf : fmod (p - r + 360) 360 == p - r + 360).
    { apply (fmod_unique _ _ 0); [ring|lra|lra]. }
    rewrite Hf in Hd1, Hd2.
    apply (determine_side_window_Left p r (-180 + side_margin) (- side_margin) 0);
      try reflexivity; try lra; vm_compute; intros H; discriminate H.
  - destruct (Qlt_le_dec (p - r) 360) as [Hlt|Hge].
    + assert (Hf : fmod (p - r + 360) 360 == p - r).
      { apply (fmod_unique _ _ 1); [ring|lra|lra]. }
      rewrite Hf in Hd1, Hd2.
      apply (determine_side_window_Left p r (180 + side_margin) (360 - side_margin) 1);
        try reflexivity; try lra; vm_compute; intros H; discriminate H.
    + assert (Hf : fmod (p - r + 360) 360 == 0).
      { apply (fmod_unique _ _ 2); [|lra|lra].
        change (inject_Z 2) with 2. lra. }
      rewrite Hf in Hd1. rewrite Hm in Hd1. lra.
Qed.

Lemma Qfloor_unique (m : Q) (k : Z) :
  inject_Z k <= m -> m < inject_Z k + 1 -> Qfloor m = k.
Proof.
  intros H1 H2.
  pose proof (Qfloor_le m) as Hf. pose proof (Qlt_floor m) as Hl.
  rewrite inject_Z_plus in Hl. change (inject_Z 1) with 1 in Hl.
  assert ((Qfloor m < k + 1)%Z).
  { rewrite Zlt_Qlt, inject_Z_plus. change (inject_Z 1) with 1. lra. }
  assert ((k < Qfloor m + 1)%Z).
  { rewrite Zlt_Qlt, inject_Z_plus. change (inject_Z 1) with 1. lra. }
  lia.
Qed.

(** The nearest integer is at most one half away. *)
Lemma round_half_even_error (m : Q) :
  m - (1 # 2) <= inject_Z (Double.round_half_even m)
  /\ inject_Z (Double.round_half_even m) <= m + (1 # 2).
Proof.
  unfold Double.round_half_even. cbv zeta.
  pose proof (Qfloor_le m) as Hf. pose proof (Qlt_floor m) as Hl.
  rewrite inject_Z_plus in Hl. change (inject_Z 1) with 1 in Hl.
  destruct (Qcompare_spec (m - inject_Z (Qfloor m)) (1 # 2)) as [E|E|E].
  - destruct (Z.even (Qfloor m)); rewrite ?inject_Z_plus;
      change (inject_Z 1) with 1; lra.
  - lra.
  - rewrite inject_Z_plus. change (inject_Z 1) with 1. lra.
Qed.

(** Half way between two integers the even one is chosen. *)
Lemma round_half_even_center (m : Q) (n : Z) :
  Z.even n = true ->
  inject_Z n - (1 # 2) <= m -> m <= inject_Z n + (1 # 2) ->
  Double.round_half_even m = n.
Proof.
  intros Hn H1 H2. unfold Double.round_half_even. cbv zeta.
  destruct (Qlt_le_dec m (inject_Z n)) as [Hlt|Hge].
  - assert (Hk : inject_Z (n - 1) == inject_Z n - 1).
    { unfold Z.sub. rewrite inject_Z_plus, inject_Z_opp. reflexivity. }
    assert (Hf : Qfloor m = (n - 1)%Z) by (apply Qfloor_unique; lra).
    rewrite Hf.
    assert (Ho : Z.even (n - 1) = false).
    { rewrite Z.even_sub, Hn. reflexivity. }
    destruct (Qcompare_spec (m - inject_Z (n - 1)) (1 # 2)) as [E|E|E].
    + rewrite Ho. lia.
    + lra.
    + lia.
  - assert (Hf : Qfloor m = n) by (apply Qfloor_unique; lra).
    rewrite Hf.
    destruct (Qcompare_spec (m - inject_Z n) (1 # 2)) as [E|E|E].
    + now rewrite Hn.
    + reflexivity.
    + lra.
Qed.

Lemma ulp_exponent_bound (x : Q) (e : Z) :
  0 < x -> x < 2 ^ (e + 1) -> (Double.emin <= e - 52)%Z ->
  (Double.ulp_exponent x <= e - 52)%Z.
Proof.
  intros Hx Hlt He. unfold Double.ulp_exponent, Double.prec.
  destruct (ilog2_spec x Hx) as [H1 _].
  assert ((Double.ilog2 x < e + 1)%Z) by (apply pow2_lt_inv; lra).
  lia.
Qed.

Lemma nearest_positive_error (x : Q) (u : Z) :
  0 < x -> (Double.ulp_exponent x <= u)%Z ->
  x - 2 ^ (u - 1) <= Double.nearest_positive x
  /\ Double.nearest_positive x <= x + 2 ^ (u - 1).
Proof.
  intros Hx Hu. unfold Double.nearest_positive. cbv zeta.
  set (v := Double.ulp_exponent x) in *.
  pose proof (pow2_pos v) as Hp.
  destruct (round_half_even_error (x / 2 ^ v)) as [H1 H2].
  set (n := inject_Z (Double.round_half_even (x / 2 ^ v))) in *.
  assert (Hm : x / 2 ^ v * 2 ^ v == x) by (field; lra).
  assert (Hh : 2 * 2 ^ (v - 1) == 2 ^ v) by apply pow2_pred.
  assert (Hle : 2 ^ (v - 1) <= 2 ^ (u - 1)) by (apply pow2_le; lia).
  split; nra.
Qed.

(** Below 1024 in magnitude a rounding moves a number by [2 ^ -44] at
    most. *)
Lemma round_error_1024 (x : Q) :
  -1024 <= x -> x <= 1024 ->
  exists y, Double.round x = Some y
            /\ x - 2 ^ (-44) <= y /\ y <= x + 2 ^ (-44).
Proof.
  intros H1 H2.
  destruct (round_between (-1024) 1024 x) as (y & Ey & _); try reflexivity;
    try assumption.
  exists y. split; [exact Ey|].
  assert (Hy : y = Double.nearest x).
  { unfold Double.round in Ey. cbv zeta in Ey.
    destruct (Qle_bool _ _) in Ey; congruence. }
  subst y. clear Ey.
  assert (Hp : 0 < 2 ^ (-44)) by reflexivity.
  destruct (nearest_cases x) as [[H0 ->]|[[H0 ->]|[H0 ->]]].
  - lra.
  - destruct (Qlt_le_dec (- x) 1024) as [Hlt|Hge].
    + destruct (nearest_positive_error (- x) (-43)) as [A B]; [lra| |].
      * apply (ulp_exponent_bound (- x) 9); [lra|exact Hlt|discriminate].
      * change (2 ^ (-43 - 1)) with (2 ^ (-44)) in A, B. lra.
    + assert (Hn : Double.nearest_positive (- x) == 1024).
      { apply Qle_antisym.
        - apply nearest_positive_upper; [lra|lra|].
          apply is_double_grid_pos; reflexivity.
        - apply nearest_positive_lower; [reflexivity|lra|].
          apply is_double_grid_pos; reflexivity. }
      lra.
  - destruct (Qlt_le_dec x 1024) as [Hlt|Hge].
    + destruct (nearest_positive_error x (-43)) as [A B]; [lra| |].
      * apply (ulp_exponent_bound x 9); [lra|exact Hlt|discriminate].
      * change (2 ^ (-43 - 1)) with (2 ^ (-44)) in A, B. lra.
    + assert (Hn : Double.nearest_positive x == 1024).
      { apply Qle_antisym.
        - apply nearest_positive_upper; [lra|lra|].
          apply is_double_grid_pos; reflexivity.
        - apply nearest_positive_lower; [reflexivity|lra|].
          apply is_double_grid_pos; reflexivity. }
      lra.
Qed.

(** Around 540 the doubles are [2 ^ -43] apart, and 540 has an even
    significand: every exact result at most [2 ^ -44] away is rounded
    to 540. *)
Lemma round_at_540 (x : Q) :
  540 - 2 ^ (-44) <= x -> x <= 540 + 2 ^ (-44) ->
  exists y, Double.round x = Some y /\ y == 540.
Proof.
  intros H1 H2.
  assert (Hp : 2 ^ (-44) == 1 # 17592186044416) by reflexivity.
  assert (Hx : 0 < x) by lra.
  assert (Hu : Double.ulp_exponent x = (-43)%Z).
  { unfold Double.ulp_exponent. rewrite (ilog2_unique x 9).
    - reflexivity.
    - change (2 ^ 9) with 512. lra.
    - change (2 ^ (9 + 1)) with 1024. lra. }
  assert (Hn : Double.nearest x == 540).
  { destruct (nearest_cases x) as [[H0 _]|[[H0 _]|[_ ->]]]; try lra.
    unfold Double.nearest_positive. cbv zeta. rewrite Hu.
    rewrite (round_half_even_center _ (540 * 2 ^ 43)).
    - reflexivity.
    - reflexivity.
    - apply Qle_shift_div_l; [reflexivity|].
      change ((inject_Z (540 * 2 ^ 43) - (1 # 2)) * 2 ^ (-43))
        with ((inject_Z (540 * 2 ^ 43) - (1 # 2)) * (1 # 8796093022208)).
      change (inject_Z (540 * 2 ^ 43)) with (4749890231992320 # 1). lra.
    - apply Qle_shift_div_r; [reflexivity|].
      change ((inject_Z (540 * 2 ^ 43) + (1 # 2)) * 2 ^ (-43))
        with ((inject_Z (540 * 2 ^ 43) + (1 # 2)) * (1 # 8796093022208)).
      change (inject_Z (540 * 2 ^ 43)) with (4749890231992320 # 1). lra. }
  exists (Double.nearest x). split; [|exact Hn].
  unfold Double.round. cbv zeta.
  destruct (Qle_bool (2 ^ Double.emax) (Qabs (Double.nearest x))) eqn:E;
    [|reflexivity].
  apply Qle_bool_iff in E. rewrite Hn in E. vm_compute in E. now elim E.
Qed.

Lemma determine_side_ahead (b : Q) : determine_side b b = Right.
Proof.
  apply (determine_side_window_Right b b 0 0 1); try reflexivity; try lra;
    vm_compute; intros H; discriminate H.
Qed.

(** The sum [b + 180] as the caller computes it, for a bearing [b]. *)
Lemma determine_side_behind (b p : Q) :
  0 <= b -> b < 360 -> Double.round (b + 180) = Some p ->
  determine_side p b = Right.
Proof.
  intros H0 H1 Hp.
  assert (Hm : 2 ^ (-44) == 1 # 17592186044416) by reflexivity.
  destruct (round_error_1024 (b + 180)) as (y & Ey & Hy1 & Hy2); [lra|lra|].
  rewrite Hp in Ey. injection Ey as <-.
  destruct (round_between (180 - 2 ^ (-44)) (180 + 2 ^ (-44)) (p - b))
    as (d & Ed & Hd1 & Hd2); try reflexivity; try lra.
  destruct (round_at_540 (d + 360)) as (s & Es & Hs); [lra|lra|].
  destruct (rem_nonneg s) as (m & Em & Hmod); [lra|].
  assert (Hf : fmod s 360 == 180).
  { apply (fmod_unique _ _ 1); [|lra|lra]. change (inject_Z 1) with 1. lra. }
  unfold determine_side. cbv zeta. rewrite Ed. cbn [mbind option_bind].
  rewrite Es. cbn [mbind option_bind]. rewrite Em.
  assert (E1 : Qle_bool 0 m = true) by (apply Qle_bool_iff; lra).
  assert (E2 : Qle_bool m 180 = true) by (apply Qle_bool_iff; lra).
  now rewrite E1, E2.
Qed.

Lemma determine_side_quarter_right (b p : Q) :
  0 <= b -> b < 360 -> Double.round (b + 90) = Some p ->
  determine_side p b = Right.
Proof.
  intros H0 H1 Hp.
  assert (Hm : 2 ^ (-44) == 1 # 17592186044416) by reflexivity.
  destruct (round_error_1024 (b + 90)) as (y & Ey & Hy1 & Hy2); [lra|lra|].
  rewrite Hp in Ey. injection Ey as <-.
  assert (Hf : fmod (p - b + 360) 360 == p - b).
  { apply (fmod_unique _ _ 1); [ring|lra|lra]. }
  apply determine_side_exact_Right; rewrite ?Hf; lra.
Qed.

Lemma determine_side_quarter_left (b p : Q) :
  0 <= b -> b < 360 -> Double.round (b - 90) = Some p ->
  determine_side p b = Left.
Proof.
  intros H0 H1 Hp.
  assert (Hm : 2 ^ (-44) == 1 # 17592186044416) by reflexivity.
  assert (Hs : side_margin == 1 # 8796093022208) by reflexivity.
  destruct (round_error_1024 (b - 90)) as (y & Ey & Hy1 & Hy2); [lra|lra|].
  rewrite Hp in Ey. injection Ey as <-.
  assert (Hf : fmod (p - b + 360) 360 == p - b + 360).
  { apply (fmod_unique _ _ 0); [ring|lra|lra]. }
  apply determine_side_exact_Left; rewrite ?Hf; lra.
Qed.

Lemma round_small (x : Q) :
  -1024 <= x -> x <= 1024 -> exists p, Double.round x = Some p.
Proof.
  intros H1 H2. destruct (round_error_1024 x H1 H2) as (y & Ey & _).
  now exists y.
Qed.

(** C5, as the code has it.  [determine_side] computes
    [delta = (poi_bearing - route_bearing + 360) % 360] in double
    precision, rounding after the subtraction and after the addition.  For
    bearings at most one turn apart, with [delta] the exact value: when
    [delta] lies in the closed interval from 0 to 180 the answer is
    "Right"; when [delta] lies between [180 + 2 ^ -43] and
    [360 - 2 ^ -43] the answer is "Left" (closer to the two boundaries the
    rounded value can be 180 or 0, and the answer "Right").  For every
    bearing [b] from 0 to 360, a POI straight ahead ([b], [b]), straight
    behind ([b + 180], [b]) and at [b + 90] is on the right, and one at
    [b - 90] is on the left, the sums being those of the caller's double
    arithmetic. *)
Theorem determine_side_half_plane (poi_bearing route_bearing b : Q) :
  let delta := fmod (poi_bearing - route_bearing + 360) 360 in
  -360 <= poi_bearing - route_bearing ->
  poi_bearing - route_bearing <= 360 ->
  0 <= b -> b < 360 ->
  (0 <= delta /\ delta <= 180 ->
   determine_side poi_bearing route_bearing = Right)
  /\ (180 + side_margin <= delta /\ delta <= 360 - side_margin ->
      determine_side poi_bearing route_bearing = Left)
  /\ determine_side b b = Right
  /\ (exists p, Double.round (b + 180) = Some p /\ determine_side p b = Right)
  /\ (exists p, Double.round (b + 90) = Some p /\ determine_side p b = Right)
  /\ (exists p, Double.round (b - 90) = Some p /\ determine_side p b = Left).
Proof.
  cbv zeta. intros H1 H2 B0 B1.
  split. { intros [Ha Hb]. now apply determine_side_exact_Right. }
  split. { intros [Ha Hb]. now apply determine_side_exact_Left. }
  split. { apply determine_side_ahead. }
  split; [|split].
  - destruct (round_small (b + 180)) as [p Hp]; [lra|lra|].
    exists p. split; [exact Hp|]. now apply determine_side_behind.
  - destruct (round_small (b + 90)) as [p Hp]; [lra|lra|].
    exists p. split; [exact Hp|]. now apply determine_side_quarter_right.
  - destruct (round_small (b - 90)) as [p Hp]; [lra|lra|].
    exists p. split; [exact Hp|]. now apply determine_side_quarter_left.
Qed.

Lemma determine_side_half_plane_witness :
  determine_side 270 0 = Left
  /\ exists p, Double.round ((1 # 10) + 180) = Some p
               /\ determine_side p (1 # 10) = Right.
Proof.
  destruct (determine_side_half_plane 270 0 (1 # 10)) as (_ & HL & _ & HB & _).
  - vm_compute. intros H. discriminate H.
  - vm_compute. intros H. discriminate H.
  - vm_compute. intros H. discriminate H.
  - reflexivity.
  - split; [|exact HB]. apply HL.
    split; vm_compute; intros H; discriminate H.
Defined.

(** C5 as the specification words it fails: [180 + 2 ^ -45] is a double,
    the exact [delta] for it and the route bearing 0 is larger than 180,
    and [determine_side] answers "Right" (the sum with 360 is rounded to
    540); so does it for the double [- 2 ^ -70], whose exact [delta] is
    just below 360 (the sum with 360 is rounded to 360). *)
Lemma half_plane_test_is_rounded :
  (Double.is_double (180 + 2 ^ (-45)) = true
   /\ 180 < fmod (180 + 2 ^ (-45) - 0 + 360) 360
   /\ determine_side (180 + 2 ^ (-45)) 0 = Right)
  /\ (Double.is_double (- 2 ^ (-70)) = true
      /\ 180 < fmod (- 2 ^ (-70) - 0 + 360) 360
      /\ determine_side (- 2 ^ (-70)) 0 = Right).
Proof. repeat split; vm_compute; reflexivity. Qed.

(** ** The consensus side *)

Lemma side_counts_from (members : list GroupEntry) (l r : nat) :
  fold_left count_side members (l, r)
  = ((l + count_of Left members)%nat, (r + count_of Right members)%nat).
Proof.
  revert l r. induction members as [|[[s la] lo] members IH]; intros l r.
  - unfold count_of. simpl. f_equal; lia.
  - simpl. destruct s; rewrite IH; unfold count_of; simpl; f_equal; lia.
Qed.

Lemma side_counts_count_of (members : list GroupEntry) :
  side_counts members = (count_of Left members, count_of Right members).
Proof. unfold side_counts. now rewrite side_counts_from. Qed.

Lemma update_row_side_shared (g : gmap (option string) (list GroupEntry))
      (row : Row) :
  (1 < length (group_of g (poi_name row)))%nat ->
  side (update_row g row)
  = (if (count_of Left (group_of g (poi_name row))
         <? count_of Right (group_of g (poi_name row)))%nat
     then Right else Left).
Proof.
  intros Hlen. unfold update_row. simpl.
  apply Nat.ltb_lt in Hlen. rewrite Hlen.
  now rewrite side_counts_count_of.
Qed.

(** C1, as the code has it.  For every record whose POI-name group has
    more than one member, the update pass sets the record's side to the
    majority side over the members of the group; when "Right" and "Left"
    have the same number of members the resulting side is "Left". *)
Theorem consensus_side_majority (st : State) :
  Forall2
    (fun row row' =>
       let members := group_of (poi_groups st) (poi_name row) in
       (1 < length members)%nat ->
       ((count_of Left members < count_of Right members)%nat ->
        side row' = Right)
       /\ ((count_of Right members < count_of Left members)%nat ->
           side row' = Left)
       /\ (count_of Right members = count_of Left members ->
           side row' = Left))
    (data_to_write st) (data_to_write (_update_shared_details st)).
Proof.
  unfold _update_shared_details. simpl.
  induction (data_to_write st) as [|row rows IH]; simpl; constructor; [|exact IH].
  cbv beta zeta. intros Hlen.
  rewrite (update_row_side_shared _ _ Hlen).
  destruct (Nat.ltb_spec (count_of Left (group_of (poi_groups st) (poi_name row)))
                         (count_of Right (group_of (poi_groups st) (poi_name row))));
    repeat split; intros; try reflexivity; lia.
Qed.

(** C1 as the specification words it fails: with one "Right" and one
    "Left" member the counts are equal and the record's side becomes
    "Left", not "Right". *)
Lemma consensus_tie_is_not_right :
  ~ (let members := group_of tied_groups (poi_name cafe_row) in
     (1 < length members)%nat ->
     count_of Right members = count_of Left members ->
     side (update_row tied_groups cafe_row) = Right).
Proof.
  cbv zeta. intros H.
  assert (E : side (update_row tied_groups cafe_row) = Left) by reflexivity.
  rewrite E in H. discriminate H.
  - vm_compute. lia.
  - reflexivity.
Qed.

(** The specification's example: three "Right" and two "Left" members
    resolve to "Right". *)
Lemma consensus_side_majority_witness :
  side (update_row majority_groups cafe_row) = Right.
Proof.
  pose (st := {| poi_groups := majority_groups; seen_records := [];
                 data_to_write := [cafe_row] |}).
  pose proof (consensus_side_majority st) as H.
  apply Forall2_cons_1 in H. destruct H as [H _].
  cbv beta zeta in H.
  apply H; vm_compute; lia.
Defined.

(** ** Records alone in their group *)

(** C4, as the code has it.  For every record whose POI-name group has
    exactly one member, the update pass leaves the record's side (and every
    column but the last) as it was built, and writes into [shared_with] the
    source coordinates of that single member. *)
Theorem single_member_update (st : State) :
  Forall2
    (fun row row' =>
       forall e : GroupEntry,
         group_of (poi_groups st) (poi_name row) = [e] ->
         side row' = side row
         /\ shared_with row' = Some [ (snd (fst e), snd e) ]
         /\ row_key row' = row_key row
         /\ distance row' = distance row
         /\ bearing row' = bearing row
         /\ all_types row' = all_types row)
    (data_to_write st) (data_to_write (_update_shared_details st)).
Proof.
  unfold _update_shared_details. simpl.
  induction (data_to_write st) as [|row rows IH]; simpl; constructor; [|exact IH].
  intros [[s la] lo] He. unfold update_row, row_key. simpl. rewrite He. simpl.
  repeat split; reflexivity.
Qed.

Lemma single_member_update_witness :
  side (update_row single_groups cafe_row) = side cafe_row
  /\ shared_with (update_row single_groups cafe_row) = Some [ (10, 106) ].
Proof.
  pose (st := {| poi_groups := single_groups; seen_records := [];
                 data_to_write := [cafe_row] |}).
  pose proof (single_member_update st) as H.
  apply Forall2_cons_1 in H. destruct H as [H _].
  destruct (H (Right, 10, 106) eq_refl) as (H1 & H2 & _).
  split; [exact H1 | exact H2].
Defined.

(** C4 as the specification words it fails: the record is built with an
    empty [shared_with] column, and the update pass fills it even though
    the record is alone in its group. *)
Lemma single_member_shared_with_changes :
  ~ (length (group_of single_groups (poi_name cafe_row)) = 1%nat ->
     side (update_row single_groups cafe_row) = side cafe_row
     /\ shared_with (update_row single_groups cafe_row) = shared_with cafe_row).
Proof.
  intros H. destruct H as [_ H]; [reflexivity|]. discriminate H.
Qed.

(** ** Routes with fewer than two points, and missing coordinates *)

Lemma process_poi_raises_only_TypeError (M : MathLib) (a b c : Q) (st : State)
      (poi : Poi) (e : exn) :
  process_poi M a b c st poi = Raise e -> e = TypeError.
Proof.
  unfold process_poi, haversine_and_bearing, mbind, result_bind.
  destruct (location_lat poi), (location_lng poi); simpl;
    try (intros H; congruence).
  destruct (key_mem _ _); intros H; congruence.
Qed.

Lemma process_poi_missing (M : MathLib) (a b c : Q) (st : State) (poi : Poi) :
  missing_coordinate poi -> process_poi M a b c st poi = Raise TypeError.
Proof.
  unfold missing_coordinate, process_poi, haversine_and_bearing, mbind, result_bind.
  intros [H | H]; rewrite H; [reflexivity|].
  destruct (location_lat poi); reflexivity.
Qed.

Lemma for_each_pois_missing (M : MathLib) (a b c : Q) (pois : list Poi) (st : State) :
  (exists poi, In poi pois /\ missing_coordinate poi) ->
  for_each (process_poi M a b c) pois st = Raise TypeError.
Proof.
  revert st. induction pois as [|p pois IH]; intros st [poi [Hin Hm]].
  - destruct Hin.
  - simpl. destruct (process_poi M a b c st p) as [st'|e] eqn:E; simpl.
    + destruct Hin as [-> | Hin].
      * rewrite (process_poi_missing M a b c st poi Hm) in E. discriminate E.
      * apply IH. exists poi. split; assumption.
    + f_equal. eapply process_poi_raises_only_TypeError. exact E.
Qed.

Lemma for_each_pois_raises_only_TypeError (M : MathLib) (a b c : Q)
      (pois : list Poi) (st : State) (e : exn) :
  for_each (process_poi M a b c) pois st = Raise e -> e = TypeError.
Proof.
  revert st. induction pois as [|p pois IH]; intros st; simpl.
  - discriminate.
  - destruct (process_poi M a b c st p) as [st'|e'] eqn:E; simpl.
    + apply IH.
    + intros H. injection H as <-. eapply process_poi_raises_only_TypeError.
      exact E.
Qed.

Lemma current_bearing_at_nonempty (sb : list Q) (i : nat) :
  sb <> [] -> exists b, current_bearing_at sb i = Ok b.
Proof.
  intros Hne. unfold current_bearing_at.
  destruct (sb !! i) as [b|]; [now exists b|].
  destruct (last sb) as [b|] eqn:E; [now exists b|].
  apply last_None in E. contradiction.
Qed.

Lemma segment_bearings_nonempty (M : MathLib) (results : list SearchResult) :
  (2 <= length results)%nat -> _calculate_segment_bearings M results <> [].
Proof.
  destruct results as [|r1 [|r2 rest]]; simpl; intros H; try lia. discriminate.
Qed.

Lemma for_each_results_missing (M : MathLib) (sb : list Q)
      (results : list SearchResult) (i : nat) (st : State) :
  sb <> [] ->
  (exists res poi, In res results /\ In poi (nearby_result res)
                   /\ missing_coordinate poi) ->
  for_each (process_result M sb) results (i, st) = Raise TypeError.
Proof.
  intros Hsb. revert i st.
  induction results as [|r results IH]; intros i st (res & poi & Hres & Hpoi & Hm).
  - destruct Hres.
  - simpl. unfold process_result at 1. unfold mbind, result_bind.
    destruct (current_bearing_at_nonempty sb i Hsb) as [b ->]. simpl.
    destruct (for_each _ (nearby_result r) st) as [st'|e] eqn:E; simpl.
    + destruct Hres as [-> | Hres].
      * rewrite for_each_pois_missing in E; [discriminate E|].
        exists poi. split; assumption.
      * apply IH. exists res, poi. repeat split; assumption.
    + f_equal. eapply for_each_pois_raises_only_TypeError. exact E.
Qed.

(** C2, what the code does.  On a route of at least two points, an
    observation whose POI latitude or longitude is missing makes
    [process_pois] raise [TypeError]: the run stops and no record is
    returned. *)
Theorem missing_coordinate_aborts (M : MathLib) (results : list SearchResult) :
  (2 <= length results)%nat ->
  (exists res poi, In res results /\ In poi (nearby_result res)
                   /\ missing_coordinate poi) ->
  process_pois M results = Raise TypeError.
Proof.
  intros Hlen Hm. unfold process_pois, mbind, result_bind.
  rewrite for_each_results_missing; [reflexivity| |exact Hm].
  now apply segment_bearings_nonempty.
Qed.

(** C3, what the code does.  A route of exactly one point makes
    [process_pois] raise [IndexError], whether or not observations are
    attached to the point; the empty route gives the empty result. *)
Theorem single_point_route_raises (M : MathLib) (res : SearchResult) :
  process_pois M [res] = Raise IndexError
  /\ exists st, process_pois M [] = Ok st /\ data_to_write st = [].
Proof.
  split; [reflexivity|]. eexists. split; reflexivity.
Qed.

(** ** Deduplication *)

Lemma key_eqb_refl (k : Key) : key_eqb k k = true.
Proof.
  destruct k as [[[[a b] c] d] n]. simpl. rewrite !Qeq_bool_refl. simpl.
  apply bool_decide_eq_true. reflexivity.
Qed.

Lemma key_eqb_left (k k' k1 : Key) :
  key_eqb k k' = true -> key_eqb k k1 = key_eqb k' k1.
Proof.
  destruct k as [[[[a b] c] d] n], k' as [[[[a' b'] c'] d'] n'],
           k1 as [[[[a1 b1] c1] d1] n1]. simpl.
  rewrite !andb_true_iff, !Qeq_bool_iff, bool_decide_eq_true.
  intros [[[[Ha Hb] Hc] Hd] ->].
  now rewrite Ha, Hb, Hc, Hd.
Qed.

Lemma key_mem_left (k k' : Key) (seen : list Key) :
  key_eqb k k' = true -> key_mem k seen = key_mem k' seen.
Proof.
  intros H. unfold key_mem. induction seen as [|k1 seen IH]; simpl; [reflexivity|].
  now rewrite (key_eqb_left k k' k1 H), IH.
Qed.

Lemma filter_map_commute {A B} (p : B -> bool) (f : A -> B) (l : list A) :
  List.filter p (map f l) = map f (List.filter (fun x => p (f x)) l).
Proof.
  induction l as [|x l IH]; simpl; [reflexivity|].
  destruct (p (f x)); simpl; now rewrite IH.
Qed.

Lemma init_state_consistent : consistent init_state.
Proof. split; intros; reflexivity. Qed.

Lemma process_poi_consistent (M : MathLib) (a b c : Q) (st st' : State)
      (poi : Poi) :
  consistent st ->
  process_poi M a b c st poi = Ok st' ->
  consistent st'
  /\ (forall k, key_mem k (seen_records st) = true ->
                key_mem k (seen_records st') = true)
  /\ exists plat plon,
      location_lat poi = Some plat /\ location_lng poi = Some plon
      /\ key_mem (a, b, plat, plon, name poi) (seen_records st') = true.
Proof.
  intros [Hkeys Hgroups]. unfold process_poi, haversine_and_bearing, mbind, result_bind.
  destruct (location_lat poi) as [plat|]; [|discriminate].
  destruct (location_lng poi) as [plon|]; [|discriminate]. simpl.
  destruct (key_mem (a, b, plat, plon, name poi) (seen_records st)) eqn:Eseen;
    intros H; injection H as <-.
  { split; [split; assumption|]. split; [auto|]. exists plat, plon. auto. }
  unfold consistent. cbn [data_to_write seen_records poi_groups].
  split; [split|split].
  - intros k. unfold rows_with_key. rewrite List.filter_app, List.length_app.
    fold (rows_with_key k (data_to_write st)). rewrite Hkeys. simpl.
    unfold row_key. simpl.
    destruct (key_eqb k (a, b, plat, plon, name poi)) eqn:Ek; simpl.
    + rewrite (key_mem_left _ _ _ Ek), Eseen. reflexivity.
    + destruct (key_mem k (seen_records st)); reflexivity.
  - intros n. unfold group_of, rows_named.
    rewrite List.filter_app, List.map_app. simpl.
    destruct (decide (name poi = n)) as [->|Hne].
    + rewrite lookup_insert_eq. simpl.
      rewrite bool_decide_eq_true_2 by reflexivity. simpl.
      f_equal. apply Hgroups.
    + rewrite lookup_insert_ne by exact Hne.
      rewrite bool_decide_eq_false_2 by exact Hne. simpl.
      rewrite List.app_nil_r. apply Hgroups.
  - intros k Hk. unfold key_mem in *. simpl. rewrite Hk. apply orb_true_r.
  - exists plat, plon. repeat split. unfold key_mem. cbn [existsb].
    rewrite key_eqb_refl. reflexivity.
Qed.

(** An observation whose key was seen already leaves the state as it is:
    no row, no group entry, no exception. *)
Lemma seen_observation_is_dropped (M : MathLib) (a b c : Q) (st : State)
      (poi : Poi) (plat plon : Q) :
  location_lat poi = Some plat -> location_lng poi = Some plon ->
  key_mem (a, b, plat, plon, name poi) (seen_records st) = true ->
  process_poi M a b c st poi = Ok st.
Proof.
  intros Hlat Hlon Hseen.
  unfold process_poi, haversine_and_bearing, mbind, result_bind.
  rewrite Hlat, Hlon. cbn [Py.bind]. now rewrite Hseen.
Qed.

Lemma for_each_pois_consistent (M : MathLib) (a b c : Q) (pois : list Poi)
      (st st' : State) :
  consistent st ->
  for_each (process_poi M a b c) pois st = Ok st' ->
  consistent st'
  /\ (forall k, key_mem k (seen_records st) = true ->
                key_mem k (seen_records st') = true)
  /\ forall poi, In poi pois ->
       exists plat plon,
         location_lat poi = Some plat /\ location_lng poi = Some plon
         /\ key_mem (a, b, plat, plon, name poi) (seen_records st') = true.
Proof.
  revert st. induction pois as [|p pois IH]; intros st Hc; simpl.
  - intros H. injection H as <-. split; [exact Hc|]. split; [auto|]. intros ? [].
  - destruct (process_poi M a b c st p) as [st1|e] eqn:E; simpl; [|discriminate].
    intros H.
    destruct (process_poi_consistent M a b c st st1 p Hc E) as (Hc1 & Hmono1 & Hp).
    destruct (IH st1 Hc1 H) as (Hc' & Hmono & Hall).
    split; [exact Hc'|]. split; [auto|].
    intros poi [<- | Hin]; [|now apply Hall].
    destruct Hp as (plat & plon & H1 & H2 & H3).
    exists plat, plon. auto.
Qed.

Lemma for_each_results_consistent (M : MathLib) (sb : list Q)
      (results : list SearchResult) (i j : nat) (st st' : State) :
  consistent st ->
  for_each (process_result M sb) results (i, st) = Ok (j, st') ->
  consistent st'
  /\ (forall k, key_mem k (seen_records st) = true ->
                key_mem k (seen_records st') = true)
  /\ forall res poi, In res results -> In poi (nearby_result res) ->
       exists k, observation_key res poi = Some k
                 /\ key_mem k (seen_records st') = true.
Proof.
  revert i st. induction results as [|r results IH]; intros i st Hc; simpl.
  - intros H. injection H as <- <-. split; [exact Hc|]. split; [auto|].
    intros ? ? [].
  - unfold process_result at 1. unfold mbind, result_bind.
    destruct (current_bearing_at sb i) as [cb|e]; simpl; [|discriminate].
    destruct (for_each _ (nearby_result r) st) as [st1|e] eqn:E; simpl;
      [|discriminate].
    intros H.
    destruct (for_each_pois_consistent M _ _ _ _ _ _ Hc E) as (Hc1 & Hmono1 & Hp).
    destruct (IH _ _ Hc1 H) as (Hc' & Hmono & Hall).
    split; [exact Hc'|]. split; [auto|].
    intros res poi [<- | Hin] Hpoi; [|now apply (Hall res poi)].
    destruct (Hp poi Hpoi) as (plat & plon & H1 & H2 & H3).
    exists (lat (coordinate r), lon (coordinate r), plat, plon, name poi).
    unfold observation_key. rewrite H1, H2. auto.
Qed.

(** C6.  When [process_pois] returns, every observation of the input has
    exactly one record with its identity key (so two observations with the
    same key share a single record, the later one being dropped), no key
    has more than one record, and the group of each POI name holds exactly
    one entry per record of that name, with that record's source
    coordinates, in order. *)
Theorem deduplication (M : MathLib) (results : list SearchResult) (st : State) :
  process_pois M results = Ok st ->
  (forall res poi, In res results -> In poi (nearby_result res) ->
     exists k, observation_key res poi = Some k
               /\ length (rows_with_key k (data_to_write st)) = 1%nat)
  /\ (forall k, (length (rows_with_key k (data_to_write st)) <= 1)%nat)
  /\ (forall n, sources_of (group_of (poi_groups st) n)
                = map (fun r => (source_lat r, source_lon r))
                      (rows_named n (data_to_write st))).
Proof.
  unfold process_pois, mbind, result_bind.
  destruct (for_each _ results (0%nat, init_state)) as [[j st0]|e] eqn:E; simpl;
    [|discriminate].
  intros H. injection H as <-.
  destruct (for_each_results_consistent M _ _ _ _ _ _ init_state_consistent E)
    as ([Hkeys Hgroups] & _ & Hall).
  assert (Hlen : forall k,
             length (rows_with_key k (data_to_write (_update_shared_details st0)))
             = length (rows_with_key k (data_to_write st0))).
  { intros k. unfold _update_shared_details, rows_with_key. simpl.
    rewrite filter_map_commute, List.length_map. reflexivity. }
  split; [|split].
  - intros res poi Hres Hpoi.
    destruct (Hall res poi Hres Hpoi) as (k & Hk & Hmem).
    exists k. split; [exact Hk|]. rewrite Hlen, Hkeys, Hmem. reflexivity.
  - intros k. rewrite Hlen, Hkeys. destruct (key_mem k (seen_records st0)); lia.
  - intros n. unfold _update_shared_details. simpl. rewrite Hgroups.
    unfold rows_named, sources_of. rewrite filter_map_commute, !List.map_map.
    reflexivity.
Qed.

Lemma deduplication_witness :
  exists st,
    process_pois identity_math duplicate_route = Ok st
    /\ length (data_to_write st) = 1%nat
    /\ forall k, (length (rows_with_key k (data_to_write st)) <= 1)%nat.
Proof.
  eexists. split; [vm_compute; reflexivity|]. split; [reflexivity|].
  apply (deduplication identity_math duplicate_route). vm_compute. reflexivity.
Defined.

Lemma missing_coordinate_aborts_witness :
  process_pois identity_math unlocated_route = Raise TypeError.
Proof.
  apply missing_coordinate_aborts.
  - simpl. lia.
  - exists {| coordinate := first_point; nearby_result := [unlocated; shop] |},
           unlocated.
    split; [left; reflexivity|]. split; [left; reflexivity|].
    left. reflexivity.
Defined.

(** ** The geometric median *)

Lemma estimate_from_shift (M : MathLib) (coords : list Point) (start : Point)
      (k : nat) :
  estimate_from M coords (new_median_of M tolerance coords start) k
  = estimate_from M coords start (S k).
Proof.
  induction k as [|k IH]; [reflexivity|].
  simpl. simpl in IH. now rewrite IH.
Qed.

Lemma small_move_shift (M : MathLib) (coords : list Point) (start : Point)
      (k : nat) :
  small_move M coords (new_median_of M tolerance coords start) k
  = small_move M coords start (S k).
Proof.
  unfold small_move. now rewrite !estimate_from_shift.
Qed.

Lemma geometric_median_loop_spec (M : MathLib) (coords : list Point) (n : nat) :
  forall (median : Point) (done : nat),
  exists k,
    (k <= n)%nat
    /\ geometric_median_loop M n tolerance coords median done
       = (estimate_from M coords median k, (done + k)%nat)
    /\ (forall j, (S j < k)%nat -> small_move M coords median j = false)
    /\ ((k < n)%nat ->
        exists k', k = S k' /\ small_move M coords median k' = true)
    /\ ((0 < n)%nat -> (0 < k)%nat).
Proof.
  induction n as [|n IH]; intros median done.
  - exists 0%nat. simpl. repeat split; try lia.
    now rewrite Nat.add_0_r.
  - simpl.
    destruct (Qlt_bool (norm M (point_sub (new_median_of M tolerance coords median)
                                          median)) tolerance) eqn:E.
    + exists 1%nat. simpl. repeat split; try lia.
      * now rewrite Nat.add_1_r.
      * intros _. exists 0%nat. split; [reflexivity|exact E].
    + destruct (IH (new_median_of M tolerance coords median) (S done))
        as (k & Hk & Hrun & Hbefore & Hstop & _).
      exists (S k). split; [lia|]. split; [|split; [|split]].
      * rewrite Hrun, estimate_from_shift. f_equal. lia.
      * intros [|j] Hj; [exact E|].
        rewrite <- small_move_shift. apply Hbefore. lia.
      * intros Hlt. destruct Hstop as (k' & -> & Hs); [lia|].
        exists (S k'). split; [reflexivity|].
        now rewrite <- small_move_shift.
      * lia.
Qed.

(** C9.  For every non-empty list of coordinates [geometric_median]
    returns after [k] loop bodies with [1 <= k <= 100]: it starts from the
    arithmetic mean, returns the first update that moved the estimate by
    less than the tolerance [1e-5], and when no update within the cap did
    so it returns the estimate after the 100th update. *)
Theorem geometric_median_terminates (M : MathLib) (coords : list Point) :
  (0 < length coords)%nat ->
  exists k,
    (1 <= k <= 100)%nat
    /\ geometric_median_run M coords
       = (estimate_from M coords (mean_point coords) k, k)
    /\ geometric_median M coords = estimate_from M coords (mean_point coords) k
    /\ estimate_from M coords (mean_point coords) 0
       = (mean (map fst coords), mean (map snd coords))
    /\ (forall j, (S j < k)%nat ->
                  small_move M coords (mean_point coords) j = false)
    /\ ((k < 100)%nat ->
        exists k', k = S k'
                   /\ small_move M coords (mean_point coords) k' = true).
Proof.
  intros _.
  destruct (geometric_median_loop_spec M coords max_iterations
                                       (mean_point coords) 0)
    as (k & Hk & Hrun & Hbefore & Hstop & Hpos).
  exists k. unfold geometric_median, geometric_median_run.
  rewrite Hrun. simpl.
  split; [split; [apply Hpos; unfold max_iterations; lia | exact Hk]|].
  repeat split; try assumption.
Qed.

Lemma geometric_median_terminates_witness :
  exists k, (1 <= k <= 100)%nat
            /\ snd (geometric_median_run identity_math square) = k.
Proof.
  destruct (geometric_median_terminates identity_math square) as (k & Hk & Hrun & _).
  - simpl. lia.
  - exists k. split; [exact Hk|]. rewrite Hrun. reflexivity.
Defined.

(** ** The production reconstruction *)

Lemma Qlt_bool_true (x y : Q) : Qlt_bool x y = true -> x < y.
Proof.
  unfold Qlt_bool. intros H. apply negb_true_iff in H.
  apply Qnot_le_lt. intros Hle. apply Qle_bool_iff in Hle. congruence.
Qed.

Lemma Qlt_bool_false (x y : Q) : Qlt_bool x y = false -> y <= x.
Proof.
  unfold Qlt_bool. intros H. apply negb_false_iff in H.
  now apply Qle_bool_iff.
Qed.

Lemma min_by_bearing_spec (rest : list Member) :
  forall best : Member,
    In (min_by_bearing best rest) (best :: rest)
    /\ member_bearing (min_by_bearing best rest) <= member_bearing best
    /\ forall m, In m rest ->
                 member_bearing (min_by_bearing best rest) <= member_bearing m.
Proof.
  induction rest as [|x rest IH]; intros best; simpl.
  - split; [now left|]. split; [apply Qle_refl|]. intros ? [].
  - destruct (Qlt_bool (member_bearing x) (member_bearing best)) eqn:E.
    + apply Qlt_bool_true in E.
      destruct (IH x) as (Hin & Hle & Hall).
      split; [right; exact Hin|]. split; [lra|].
      intros m [<- | Hm]; [exact Hle | now apply Hall].
    + apply Qlt_bool_false in E.
      destruct (IH best) as (Hin & Hle & Hall).
      split; [destruct Hin as [Hin | Hin]; [now left | right; now right]|].
      split; [exact Hle|].
      intros m [<- | Hm]; [lra | now apply Hall].
Qed.

Lemma find_min_bearing_spec (group : list Member) :
  group <> [] ->
  exists anchor,
    find_min_bearing group = Ok anchor
    /\ In anchor group
    /\ forall m, In m group -> member_bearing anchor <= member_bearing m.
Proof.
  destruct group as [|x rest]; [congruence|]. intros _.
  destruct (min_by_bearing_spec rest x) as (Hin & Hle & Hall).
  exists (min_by_bearing x rest). split; [reflexivity|]. split; [exact Hin|].
  intros m [<- | Hm]; [exact Hle | now apply Hall].
Qed.

Lemma dict_get_append {V} (d : list (string * list V)) (k k' : string) (v : V) :
  dict_get (dict_append d k v) k'
  = if String.eqb k' k then Some (default [] (dict_get d k) ++ [v])
    else dict_get d k'.
Proof.
  induction d as [|[k1 l] d IH]; simpl.
  - destruct (String.eqb k' k); reflexivity.
  - destruct (String.eqb_spec k k1) as [->|Hne]; simpl.
    + destruct (String.eqb_spec k' k1); reflexivity.
    + rewrite IH. destruct (String.eqb_spec k' k1) as [->|Hne'].
      * destruct (String.eqb_spec k1 k); [congruence|reflexivity].
      * reflexivity.
Qed.

Lemma dict_append_keys {V} (d : list (string * list V)) (k : string) (v : V) :
  NoDup (map fst d) -> NoDup (map fst (dict_append d k v))
  /\ forall k', In k' (map fst (dict_append d k v)) <-> k' = k \/ In k' (map fst d).
Proof.
  induction d as [|[k1 l] d IH]; simpl; intros Hnd.
  - split; [apply NoDup_singleton|]. intros k'. intuition.
  - apply NoDup_cons in Hnd as [Hk1 Hnd]. rewrite list_elem_of_In in Hk1.
    destruct (String.eqb_spec k k1) as [->|Hne]; simpl.
    + split; [apply NoDup_cons; split; [rewrite list_elem_of_In|]; assumption|].
      intros k'. intuition.
    + destruct (IH Hnd) as [IHnd IHin].
      split.
      * apply NoDup_cons. split; [|exact IHnd].
        rewrite list_elem_of_In, IHin. intros [<- | H]; [congruence|contradiction].
      * intros k'. rewrite IHin. intuition.
Qed.

Lemma dict_get_In {V} (d : list (string * V)) (k : string) (v : V) :
  NoDup (map fst d) -> In (k, v) d -> dict_get d k = Some v.
Proof.
  induction d as [|[k1 v1] d IH]; simpl; intros Hnd Hin; [destruct Hin|].
  apply NoDup_cons in Hnd as [Hk1 Hnd]. rewrite list_elem_of_In in Hk1.
  destruct Hin as [Heq | Hin].
  - injection Heq as -> ->. now rewrite String.eqb_refl.
  - destruct (String.eqb_spec k k1) as [->|Hne]; [|now apply IH].
    exfalso. apply Hk1. apply in_map_iff. exists (k1, v). auto.
Qed.

Lemma read_row_selected (T : TextLib) (d : list (string * list Member))
      (row : CsvRow) :
  read_row T d row
  = if selected T row then dict_append d (csv_poi_name row) (member_of_row row)
    else d.
Proof.
  unfold read_row, selected.
  destruct (String.eqb (csv_poi_name row) ""); simpl; [reflexivity|].
  destruct (String.eqb (str_lower T (csv_side row)) "right"); reflexivity.
Qed.

Lemma members_named_snoc (T : TextLib) (n : string) (rows : list CsvRow)
      (row : CsvRow) :
  members_named T n (rows ++ [row])
  = members_named T n rows
    ++ (if selected T row && String.eqb (csv_poi_name row) n
        then [member_of_row row] else []).
Proof.
  unfold members_named. rewrite List.filter_app, List.map_app. simpl.
  destruct (selected T row && String.eqb (csv_poi_name row) n); reflexivity.
Qed.

Lemma read_row_groups_of (T : TextLib) (d : list (string * list Member))
      (rows : list CsvRow) (row : CsvRow) :
  groups_of T d rows -> groups_of T (read_row T d row) (rows ++ [row]).
Proof.
  intros [Hnd Hget]. rewrite read_row_selected.
  destruct (selected T row) eqn:Esel.
  - split; [apply dict_append_keys; exact Hnd|].
    intros n. rewrite dict_get_append, members_named_snoc, Esel. simpl.
    rewrite (String.eqb_sym (csv_poi_name row) n).
    destruct (String.eqb_spec n (csv_poi_name row)) as [->|Hne].
    + rewrite Hget.
      destruct (members_named T (csv_poi_name row) rows); reflexivity.
    + rewrite List.app_nil_r. apply Hget.
  - split; [exact Hnd|]. intros n.
    rewrite members_named_snoc, Esel. simpl. rewrite List.app_nil_r. apply Hget.
Qed.

Lemma fold_read_row_groups_of (T : TextLib) (rows : list CsvRow) :
  forall (d : list (string * list Member)) (done : list CsvRow),
    groups_of T d done ->
    groups_of T (fold_left (read_row T) rows d) (done ++ rows).
Proof.
  induction rows as [|row rows IH]; intros d done H; simpl.
  - now rewrite List.app_nil_r.
  - replace (done ++ row :: rows) with ((done ++ [row]) ++ rows)
      by (rewrite <- List.app_assoc; reflexivity).
    apply IH. now apply read_row_groups_of.
Qed.

Lemma read_groups_groups_of (T : TextLib) (rows : list CsvRow) :
  groups_of T (read_groups T rows) rows.
Proof.
  apply (fold_read_row_groups_of T rows [] []).
  split; [apply NoDup_nil_2|]. intros n. reflexivity.
Qed.

Lemma optimize_group_nonempty (M : MathLib) (n : string) (group : list Member) :
  group <> [] -> optimize_group M (n, group) = Ok (group_rows M (n, group)).
Proof.
  intros Hne. destruct (find_min_bearing_spec group Hne) as (anchor & Hmin & _).
  unfold optimize_group, group_rows, mbind, result_bind,
    calculate_average_distance. cbn [fst snd].
  rewrite Hmin. cbn [Py.bind].
  destruct (calculate_new_position M _ _ _ _) as [olat olon]. reflexivity.
Qed.

Lemma for_each_optimize_step (M : MathLib) (d : list (string * list Member)) :
  (forall n g, In (n, g) d -> g <> []) ->
  forall acc, for_each (optimize_step M) d acc
              = Ok (acc ++ concat (map (group_rows M) d)).
Proof.
  induction d as [|[n g] d IH]; intros Hne acc; simpl.
  - now rewrite List.app_nil_r.
  - unfold optimize_step at 1. unfold mbind, result_bind.
    rewrite optimize_group_nonempty by (apply (Hne n); now left). simpl.
    rewrite IH by (intros n' g' H; apply (Hne n'); now right).
    now rewrite <- List.app_assoc.
Qed.

Lemma out_rows_named_rows_at (n k : string) (pos : Q * Q) (group : list Member) :
  out_rows_named n (rows_at k pos group)
  = if String.eqb k n then rows_at k pos group else [].
Proof.
  unfold out_rows_named, rows_at.
  induction group as [|g group IH]; simpl.
  - destruct (String.eqb k n); reflexivity.
  - rewrite IH. destruct (String.eqb k n); reflexivity.
Qed.

Lemma out_rows_named_group_rows (M : MathLib) (n k : string) (g : list Member) :
  out_rows_named n (group_rows M (k, g))
  = if String.eqb k n then group_rows M (k, g) else [].
Proof.
  unfold group_rows. simpl. destruct (find_min_bearing g).
  - apply out_rows_named_rows_at.
  - destruct (String.eqb k n); reflexivity.
Qed.

Lemma dict_get_None {V} (d : list (string * V)) (k : string) :
  ~ In k (map fst d) -> dict_get d k = None.
Proof.
  induction d as [|[k1 v1] d IH]; simpl; intros Hk; [reflexivity|].
  destruct (String.eqb_spec k k1) as [->|Hne]; [tauto|]. apply IH. tauto.
Qed.

Lemma out_rows_named_concat (M : MathLib) (n : string)
      (d : list (string * list Member)) :
  NoDup (map fst d) ->
  out_rows_named n (concat (map (group_rows M) d))
  = match dict_get d n with
    | Some g => group_rows M (n, g)
    | None => []
    end.
Proof.
  induction d as [|[k g] d IH]; simpl; intros Hnd; [reflexivity|].
  apply NoDup_cons in Hnd as [Hk Hnd]. rewrite list_elem_of_In in Hk.
  unfold out_rows_named in *. rewrite List.filter_app.
  fold (out_rows_named n (group_rows M (k, g))).
  rewrite out_rows_named_group_rows, (IH Hnd), (String.eqb_sym n k).
  destruct (String.eqb_spec k n) as [->|Hne].
  - rewrite (dict_get_None d n Hk). now rewrite List.app_nil_r.
  - reflexivity.
Qed.

(** C7.  For every POI name with at least one member observation (a row
    with a non-empty name whose side passes the "right" filter),
    [optimize_poi_positions] returns normally, and the output rows of that
    name are exactly one row per member observation, in order, each with
    the member's source coordinates and all with the same optimized
    position: the projection by [calculate_new_position] from the member of
    minimum bearing (its POI coordinates and its bearing) over the mean of
    the members' distances.  The number of output rows of the name is the
    number of its member observations. *)
Theorem one_position_per_group (M : MathLib) (T : TextLib) (rows : list CsvRow)
        (n : string) :
  members_named T n rows <> [] ->
  exists out anchor,
    optimize_poi_positions M T rows = Ok out
    /\ In anchor (members_named T n rows)
    /\ find_min_bearing (members_named T n rows) = Ok anchor
    /\ (forall m, In m (members_named T n rows) ->
                  member_bearing anchor <= member_bearing m)
    /\ out_rows_named n out
       = rows_at n
           (calculate_new_position M (member_poi_lat anchor)
              (member_poi_lon anchor) (member_bearing anchor)
              (mean (map member_distance (members_named T n rows))))
           (members_named T n rows)
    /\ length (out_rows_named n out) = length (members_named T n rows).
Proof.
  intros Hne.
  destruct (read_groups_groups_of T rows) as [Hnd Hget].
  assert (Hall : forall k g, In (k, g) (read_groups T rows) -> g <> []).
  { intros k g Hin. pose proof (dict_get_In _ _ _ Hnd Hin) as Hk.
    rewrite Hget in Hk. destruct (members_named T k rows); congruence. }
  destruct (find_min_bearing_spec _ Hne) as (anchor & Hmin & Hin & Hle).
  exists (concat (map (group_rows M) (read_groups T rows))), anchor.
  assert (Hout : out_rows_named n (concat (map (group_rows M) (read_groups T rows)))
                 = rows_at n
                     (calculate_new_position M (member_poi_lat anchor)
                        (member_poi_lon anchor) (member_bearing anchor)
                        (mean (map member_distance (members_named T n rows))))
                     (members_named T n rows)).
  { rewrite (out_rows_named_concat M n _ Hnd), Hget.
    destruct (members_named T n rows) as [|m ms] eqn:E; [congruence|].
    unfold group_rows. simpl fst. simpl snd. rewrite Hmin. reflexivity. }
  split; [|split; [exact Hin|split; [exact Hmin|split; [exact Hle|split]]]].
  - unfold optimize_poi_positions. now rewrite for_each_optimize_step.
  - exact Hout.
  - rewrite Hout. unfold rows_at. apply List.length_map.
Qed.

Lemma one_position_per_group_witness :
  exists out,
    optimize_poi_positions identity_math equality_text sample_rows = Ok out
    /\ length (out_rows_named "Cafe" out) = 2%nat.
Proof.
  destruct (one_position_per_group identity_math equality_text sample_rows "Cafe")
    as (out & anchor & Hout & _ & _ & _ & _ & Hlen).
  - vm_compute. discriminate.
  - exists out. split; [exact Hout|]. rewrite Hlen. reflexivity.
Defined.

(** ** The name merge *)

Lemma deref_list_extend (h : gmap loc (list Member)) (a b l : loc) :
  deref (list_extend h a b) l
  = if decide (l = a) then deref h a ++ deref h b else deref h l.
Proof.
  unfold list_extend, deref at 1. rewrite lookup_insert.
  destruct (decide (a = l)) as [Heq|Hne]; destruct (decide (l = a)) as [E|E];
    try congruence; reflexivity.
Qed.

Lemma NoDup_snd_inj {A B} (l : list (A * B)) (e1 e2 : A * B) :
  NoDup (map snd l) -> In e1 l -> In e2 l -> snd e1 = snd e2 -> e1 = e2.
Proof.
  induction l as [|x l IH]; simpl; intros Hnd H1 H2 Heq; [destruct H1|].
  apply NoDup_cons in Hnd as [Hx Hnd]. rewrite list_elem_of_In in Hx.
  destruct H1 as [<- | H1], H2 as [<- | H2]; auto.
  - exfalso. apply Hx. rewrite Heq. now apply in_map.
  - exfalso. apply Hx. rewrite <- Heq. now apply in_map.
Qed.

Lemma NoDup_fst_inj {A B} (l : list (A * B)) (e1 e2 : A * B) :
  NoDup (map fst l) -> In e1 l -> In e2 l -> fst e1 = fst e2 -> e1 = e2.
Proof.
  induction l as [|x l IH]; simpl; intros Hnd H1 H2 Heq; [destruct H1|].
  apply NoDup_cons in Hnd as [Hx Hnd]. rewrite list_elem_of_In in Hx.
  destruct H1 as [<- | H1], H2 as [<- | H2]; auto.
  - exfalso. apply Hx. rewrite Heq. now apply in_map.
  - exfalso. apply Hx. rewrite <- Heq. now apply in_map.
Qed.

Lemma joining_add_absent (T : TextLib) (P : gset string) (s n : string)
      (xs : list (string * loc)) :
  ~ In n (map fst xs) -> joining T ({[n]} ∪ P) s xs = joining T P s xs.
Proof.
  intros Hn. unfold joining. apply List.filter_ext_in. intros e He.
  f_equal. f_equal. apply bool_decide_ext.
  assert (fst e <> n) by (intros <-; apply Hn; now apply in_map).
  set_solver.
Qed.

Lemma merge_other_cases (T : TextLib) (s : string) (sl : loc) (st : MergeState)
      (n : string) (l : loc) :
  merge_other T s sl st (n, l)
  = if negb (bool_decide (n ∈ processed_names st)) && similar T s n
    then {| merged_poi_groups := merged_poi_groups st;
            processed_names := {[n]} ∪ processed_names st;
            heap := list_extend (heap st) sl l |}
    else st.
Proof.
  unfold merge_other, similar.
  destruct (decide (n ∈ processed_names st)) as [Hin|Hnin].
  - now rewrite (bool_decide_eq_true_2 _ Hin).
  - rewrite (bool_decide_eq_false_2 _ Hnin). reflexivity.
Qed.

Lemma merge_other_fold (T : TextLib) (s : string) (sl : loc)
      (xs : list (string * loc)) :
  forall st : MergeState,
    NoDup (map fst xs) ->
    (forall e, In e xs -> fst e ∉ processed_names st -> snd e <> sl) ->
    let st' := fold_left (merge_other T s sl) xs st in
    merged_poi_groups st' = merged_poi_groups st
    /\ processed_names st'
       = list_to_set (map fst (joining T (processed_names st) s xs))
         ∪ processed_names st
    /\ forall l,
        deref (heap st') l
        = if decide (l = sl)
          then deref (heap st) sl
               ++ concat (map (fun e : string * loc => deref (heap st) (snd e))
                              (joining T (processed_names st) s xs))
          else deref (heap st) l.
Proof.
  induction xs as [|[n l] xs IH]; intros st Hnd Hloc; cbn zeta.
  - simpl. split; [reflexivity|]. split; [set_solver|].
    intros l. destruct (decide (l = sl)) as [->|]; [|reflexivity].
    now rewrite List.app_nil_r.
  - cbn [map fst] in Hnd.
    apply NoDup_cons in Hnd as [Hn Hnd]. rewrite list_elem_of_In in Hn.
    cbn [fold_left]. rewrite merge_other_cases.
    unfold joining. cbn [List.filter fst].
    fold (joining T (processed_names st) s xs).
    destruct (decide (n ∈ processed_names st)) as [Hin|Hnin].
    + rewrite (bool_decide_eq_true_2 _ Hin). cbn [negb andb].
      apply IH; [exact Hnd|]. intros e He. apply Hloc. now right.
    + rewrite (bool_decide_eq_false_2 _ Hnin). cbn [negb andb].
      destruct (similar T s n) eqn:Esim.
      * specialize (IH {| merged_poi_groups := merged_poi_groups st;
                          processed_names := {[n]} ∪ processed_names st;
                          heap := list_extend (heap st) sl l |} Hnd).
        cbn [merged_poi_groups processed_names heap] in IH.
        rewrite (joining_add_absent T _ s n xs Hn) in IH.
        destruct IH as (Hm & Hp & Hh).
        { intros e He Hne. apply Hloc; [now right|]. set_solver. }
        split; [exact Hm|]. split; [rewrite Hp; cbn [map fst]; set_solver|].
        intros l0. rewrite Hh. rewrite !deref_list_extend.
        assert (Hl : l <> sl) by (apply (Hloc (n, l)); [now left|exact Hnin]).
        destruct (decide (l0 = sl)) as [->|Hl0].
        -- destruct (decide (sl = sl)) as [_|Hc]; [|congruence].
           cbn [map concat snd]. rewrite <- List.app_assoc. f_equal. f_equal.
           f_equal. apply List.map_ext_in. intros e He.
           rewrite deref_list_extend.
           destruct (decide (snd e = sl)) as [E|]; [|reflexivity].
           exfalso. unfold joining in He. apply List.filter_In in He as [He Hb].
           apply andb_true_iff in Hb as [Hb _]. apply negb_true_iff in Hb.
           apply bool_decide_eq_false in Hb.
           apply (Hloc e); [now right|exact Hb|exact E].
        -- reflexivity.
      * apply IH; [exact Hnd|]. intros e He. apply Hloc. now right.
Qed.

Lemma filter_all_false {A} (f : A -> bool) (l : list A) :
  (forall x, In x l -> f x = false) -> List.filter f l = [].
Proof.
  induction l as [|x l IH]; simpl; intros H; [reflexivity|].
  rewrite (H x) by now left. apply IH. intros y Hy. apply H. now right.
Qed.

Lemma joining_suffix (T : TextLib) (P : gset string) (s : string) (sl : loc)
      (earlier later : list (string * loc)) :
  (forall e, In e earlier -> fst e ∈ P) ->
  ~ In s (map fst later) ->
  joining T ({[s]} ∪ P) s (earlier ++ (s, sl) :: later) = joining T P s later.
Proof.
  intros Hearlier Hs. unfold joining at 1. rewrite List.filter_app.
  rewrite filter_all_false; cycle 1.
  { intros e He. apply andb_false_iff. left. apply negb_false_iff.
    apply bool_decide_eq_true. specialize (Hearlier e He). set_solver. }
  cbn [List.filter app fst].
  rewrite bool_decide_eq_true_2 by set_solver. cbn [negb andb].
  now apply joining_add_absent.
Qed.

Lemma merge_name_cases (T : TextLib) (pg : list (string * loc))
      (st : MergeState) (s : string) (sl : loc) :
  merge_name T pg st (s, sl)
  = if decide (s ∈ processed_names st) then st
    else fold_left (merge_other T s sl) pg
           {| merged_poi_groups := merged_poi_groups st ++ [(s, sl)];
              processed_names := {[s]} ∪ processed_names st;
              heap := heap st |}.
Proof. reflexivity. Qed.

Lemma merge_name_fold (T : TextLib) (pg : list (string * loc))
      (h0 : gmap loc (list Member)) :
  NoDup (map fst pg) -> NoDup (map snd pg) ->
  forall (later earlier : list (string * loc)) (st : MergeState),
    pg = earlier ++ later ->
    (forall e, In e earlier -> fst e ∈ processed_names st) ->
    (forall e, In e pg -> fst e ∉ processed_names st ->
               deref (heap st) (snd e) = deref h0 (snd e)) ->
    let G := greedy_merge T (processed_names st) later in
    let st' := fold_left (merge_name T pg) later st in
    merged_poi_groups st' = merged_poi_groups st ++ map fst G
    /\ (forall g, In g G -> deref (heap st') (snd (fst g)) = group_content h0 g)
    /\ (forall l, (forall e, In e later -> fst e ∉ processed_names st -> snd e <> l) ->
                  deref (heap st') l = deref (heap st) l).
Proof.
  intros Hnames Hlocs.
  induction later as [|[s sl] later IH]; intros earlier st Hpg Hearlier Hheap;
    cbn zeta.
  - simpl. split; [now rewrite List.app_nil_r|]. split; [intros ? []|reflexivity].
  - assert (Hin_pg : forall e, In e ((s, sl) :: later) -> In e pg).
    { intros e He. rewrite Hpg. apply in_or_app. now right. }
    assert (Hs_later : ~ In s (map fst later)).
    { rewrite Hpg, List.map_app in Hnames. apply NoDup_app in Hnames as (_ & _ & Hn).
      cbn [map fst] in Hn. apply NoDup_cons in Hn as [Hn _].
      now rewrite list_elem_of_In in Hn. }
    assert (Hpg' : pg = (earlier ++ [(s, sl)]) ++ later).
    { rewrite Hpg, <- List.app_assoc. reflexivity. }
    cbn [fold_left greedy_merge fst]. rewrite merge_name_cases.
    destruct (decide (s ∈ processed_names st)) as [Hin|Hnin].
    + destruct (IH (earlier ++ [(s, sl)]) st Hpg') as (Hm & Hg & Hl).
      { intros e He. apply in_app_or in He as [He | [<- | []]]; [auto|exact Hin]. }
      { exact Hheap. }
      split; [exact Hm|]. split; [exact Hg|].
      intros l Hl'. apply Hl. intros e He. apply Hl'. now right.
    + set (st1 := {| merged_poi_groups := merged_poi_groups st ++ [(s, sl)];
                     processed_names := {[s]} ∪ processed_names st;
                     heap := heap st |}).
      assert (Hsep : forall e, In e pg -> fst e ∉ processed_names st1 -> snd e <> sl).
      { intros e He Hne Heq.
        assert (e = (s, sl)) as ->.
        { apply (NoDup_snd_inj pg); auto. apply Hin_pg. now left. }
        apply Hne. cbn. set_solver. }
      destruct (merge_other_fold T s sl pg st1 Hnames Hsep) as (Hm2 & Hp2 & Hh2).
      set (st2 := fold_left (merge_other T s sl) pg st1) in *.
      cbn [processed_names merged_poi_groups heap st1] in Hm2, Hp2, Hh2.
      rewrite Hpg in Hp2, Hh2.
      rewrite (joining_suffix T _ s sl earlier later Hearlier Hs_later) in Hp2, Hh2.
      fold (joining T (processed_names st) s later).
      set (ms := joining T (processed_names st) s later) in *.
      assert (Hp2' : processed_names st2
                     = {[s]} ∪ list_to_set (map fst ms) ∪ processed_names st).
      { rewrite Hp2. set_solver. }
      assert (Hms : forall e, In e ms -> In e later /\ fst e ∉ processed_names st).
      { intros e He. unfold ms, joining in He. apply List.filter_In in He as [He Hb].
        split; [exact He|]. apply andb_true_iff in Hb as [Hb _].
        apply negb_true_iff in Hb. now apply bool_decide_eq_false in Hb. }
      assert (Hseed : deref (heap st2) sl = group_content h0 ((s, sl), ms)).
      { rewrite Hh2. destruct (decide (sl = sl)) as [_|Hc]; [|congruence].
        unfold group_content. cbn [fst snd]. f_equal.
        - apply (Hheap (s, sl)); [apply Hin_pg; now left|exact Hnin].
        - f_equal. apply List.map_ext_in. intros e He.
          destruct (Hms e He) as [He1 He2].
          apply Hheap; [apply Hin_pg; now right|exact He2]. }
      destruct (IH (earlier ++ [(s, sl)]) st2 Hpg') as (Hm & Hg & Hl).
      { intros e He. rewrite Hp2'.
        apply in_app_or in He as [He | [<- | []]].
        - specialize (Hearlier e He). set_solver.
        - cbn. set_solver. }
      { intros e He Hne. rewrite Hh2.
        destruct (decide (snd e = sl)) as [Heq|Hneq].
        - exfalso. apply (Hsep e He); [|exact Heq]. cbn. rewrite Hp2' in Hne.
          set_solver.
        - apply Hheap; [exact He|]. rewrite Hp2' in Hne. set_solver. }
      rewrite <- Hp2'.
      split; [|split].
      * rewrite Hm, Hm2. cbn [map fst]. now rewrite <- List.app_assoc.
      * intros g [<- | Hg']; [|now apply Hg].
        cbn [fst snd]. rewrite Hl; [exact Hseed|].
        intros e He Hne Heq. apply (Hsep e); [apply Hin_pg; now right| |exact Heq].
        cbn. rewrite Hp2' in Hne. set_solver.
      * intros l Hl'. rewrite Hl.
        -- rewrite Hh2. destruct (decide (l = sl)) as [->|]; [|reflexivity].
           exfalso. apply (Hl' (s, sl)); [now left|exact Hnin|reflexivity].
        -- intros e He Hne. apply Hl'; [now right|]. rewrite Hp2' in Hne.
           set_solver.
Qed.

Lemma group_similar_pois_refines (T : TextLib) (pg : list (string * loc))
      (h : gmap loc (list Member)) :
  NoDup (map fst pg) -> NoDup (map snd pg) ->
  merged_contents (group_similar_pois T pg h)
  = map (fun g => (fst (fst g), group_content h g)) (greedy_merge T ∅ pg).
Proof.
  intros Hnames Hlocs.
  destruct (merge_name_fold T pg h Hnames Hlocs pg []
              {| merged_poi_groups := []; processed_names := ∅; heap := h |})
    as (Hm & Hg & _).
  - reflexivity.
  - intros ? [].
  - reflexivity.
  - cbn [processed_names merged_poi_groups heap] in Hm, Hg.
    unfold merged_contents, group_similar_pois. rewrite Hm. cbn [app].
    rewrite List.map_map. apply List.map_ext_in. intros g Hin.
    cbn [fst snd]. f_equal. now apply Hg.
Qed.

Lemma greedy_merge_members (T : TextLib) (entries : list (string * loc)) :
  forall (P : gset string) g x,
    In g (greedy_merge T P entries) -> In x (group_entries g) ->
    In x entries /\ fst x ∉ P.
Proof.
  induction entries as [|[s sl] later IH]; intros P g x Hg Hx; [destruct Hg|].
  cbn [greedy_merge fst] in Hg.
  destruct (decide (s ∈ P)) as [Hin|Hnin].
  - destruct (IH P g x Hg Hx). split; [now right|assumption].
  - destruct Hg as [<- | Hg].
    + destruct Hx as [<- | Hx]; [split; [now left|exact Hnin]|].
      cbn [snd] in Hx. apply List.filter_In in Hx as [Hx Hb].
      split; [now right|]. apply andb_true_iff in Hb as [Hb _].
      apply negb_true_iff in Hb. now apply bool_decide_eq_false in Hb.
    + destruct (IH _ g x Hg Hx) as [H1 H2]. split; [now right|]. set_solver.
Qed.

Lemma greedy_merge_similar (T : TextLib) (entries : list (string * loc)) :
  forall (P : gset string) g m,
    In g (greedy_merge T P entries) -> In m (snd g) ->
    similar T (fst (fst g)) (fst m) = true.
Proof.
  induction entries as [|[s sl] later IH]; intros P g m Hg Hm; [destruct Hg|].
  cbn [greedy_merge fst] in Hg.
  destruct (decide (s ∈ P)) as [Hin|Hnin]; [now apply (IH P)|].
  destruct Hg as [<- | Hg]; [|exact (IH _ g m Hg Hm)].
  cbn [fst snd] in *. apply List.filter_In in Hm as [_ Hb].
  now apply andb_true_iff in Hb as [_ Hb].
Qed.

Lemma greedy_merge_later_dissimilar (T : TextLib) (entries : list (string * loc)) :
  forall P : gset string,
    ForallOrdPairs (dissimilar_to_seed T) (greedy_merge T P entries).
Proof.
  induction entries as [|[s sl] later IH]; intros P; [constructor|].
  cbn [greedy_merge fst].
  destruct (decide (s ∈ P)) as [Hin|Hnin]; [apply IH|].
  constructor; [|apply IH].
  apply List.Forall_forall. intros g' Hg' x Hx. cbn [fst].
  destruct (greedy_merge_members T later _ g' x Hg' Hx) as [Hlater HnP].
  destruct (similar T s (fst x)) eqn:Esim; [|reflexivity].
  exfalso. apply HnP.
  assert (In x (List.filter (fun e : string * loc =>
                               negb (bool_decide (fst e ∈ P))
                               && similar T s (fst e)) later)) as Hjoin.
  { apply List.filter_In. split; [exact Hlater|].
    rewrite Esim, bool_decide_eq_false_2; [reflexivity|]. set_solver. }
  apply (in_map fst) in Hjoin. rewrite <- list_elem_of_In in Hjoin. set_solver.
Qed.

Lemma filter_split_perm {A} (f g : A -> bool) (l : list A) :
  Permutation (List.filter (fun x => f x && g x) l
               ++ List.filter (fun x => f x && negb (g x)) l)
              (List.filter f l).
Proof.
  induction l as [|x l IH]; simpl; [constructor|].
  destruct (f x), (g x); simpl; auto.
  apply Permutation_sym, Permutation_cons_app, Permutation_sym, IH.
Qed.

Lemma greedy_merge_partition (T : TextLib) (entries : list (string * loc)) :
  forall P : gset string,
    NoDup (map fst entries) ->
    Permutation (concat (map group_entries (greedy_merge T P entries)))
                (List.filter (fun e : string * loc =>
                                negb (bool_decide (fst e ∈ P))) entries).
Proof.
  induction entries as [|[s sl] later IH]; intros P Hnd; [constructor|].
  cbn [map fst] in Hnd. apply NoDup_cons in Hnd as [Hs Hnd].
  rewrite list_elem_of_In in Hs.
  cbn [greedy_merge List.filter fst].
  destruct (decide (s ∈ P)) as [Hin|Hnin].
  - rewrite (bool_decide_eq_true_2 _ Hin). cbn [negb]. now apply IH.
  - rewrite (bool_decide_eq_false_2 _ Hnin).
    cbn [negb map concat group_entries fst snd app].
    apply perm_skip.
    set (ms := List.filter (fun e : string * loc =>
                              negb (bool_decide (fst e ∈ P))
                              && similar T s (fst e)) later).
    rewrite (IH _ Hnd).
    rewrite <- (filter_split_perm (fun e : string * loc =>
                                     negb (bool_decide (fst e ∈ P)))
                                  (fun e => similar T s (fst e)) later).
    fold ms. apply Permutation_app_head.
    erewrite List.filter_ext_in; [reflexivity|].
    intros e He. cbv beta.
    assert (Hes : fst e <> s) by (intros <-; apply Hs; now apply in_map).
    destruct (bool_decide (fst e ∈ P)) eqn:EP.
    + apply bool_decide_eq_true in EP. cbn [negb andb].
      apply negb_false_iff, bool_decide_eq_true. set_solver.
    + apply bool_decide_eq_false in EP. cbn [negb andb].
      destruct (similar T s (fst e)) eqn:Esim; cbn [negb].
      * apply negb_false_iff, bool_decide_eq_true.
        assert (In e ms) as Hms.
        { apply List.filter_In. split; [exact He|].
          rewrite Esim, bool_decide_eq_false_2; [reflexivity|exact EP]. }
        apply (in_map fst) in Hms. rewrite <- list_elem_of_In in Hms. set_solver.
      * apply negb_true_iff, bool_decide_eq_false.
        intros Hin. apply elem_of_union in Hin as [Hin | Hin]; [|contradiction].
        apply elem_of_union in Hin as [Hin | Hin]; [set_solver|].
        apply elem_of_list_to_set, list_elem_of_In, in_map_iff in Hin
          as (m & Hfst & Hm).
        apply List.filter_In in Hm as [Hm Hb].
        assert (m = e) as -> by (apply (NoDup_fst_inj later); auto).
        rewrite Esim, andb_false_r in Hb. discriminate Hb.
Qed.

Lemma greedy_merge_covers (T : TextLib) (pg : list (string * loc)) :
  NoDup (map fst pg) ->
  Permutation (concat (map group_entries (greedy_merge T ∅ pg))) pg.
Proof.
  intros Hnd. rewrite (greedy_merge_partition T pg ∅ Hnd).
  replace (List.filter _ pg) with pg; [reflexivity|].
  clear Hnd. induction pg as [|e pg IH]; [reflexivity|].
  cbn [List.filter]. rewrite bool_decide_eq_false_2 by set_solver.
  cbn [negb]. now f_equal.
Qed.

Lemma filter_sublist {A} (f : A -> bool) (l : list A) : sublist (List.filter f l) l.
Proof.
  induction l as [|x l IH]; simpl; [constructor|].
  destruct (f x); [now apply sublist_skip | now apply sublist_cons].
Qed.

Lemma greedy_merge_seeds_in_order (T : TextLib) (entries : list (string * loc)) :
  forall P : gset string, sublist (map fst (greedy_merge T P entries)) entries.
Proof.
  induction entries as [|[s sl] later IH]; intros P; [constructor|].
  cbn [greedy_merge fst].
  destruct (decide (s ∈ P)); [apply sublist_cons, IH|].
  cbn [map fst]. apply sublist_skip, IH.
Qed.

Lemma greedy_merge_group_in_order (T : TextLib) (entries : list (string * loc)) :
  forall (P : gset string) g,
    In g (greedy_merge T P entries) -> sublist (group_entries g) entries.
Proof.
  induction entries as [|[s sl] later IH]; intros P g Hg; [destruct Hg|].
  cbn [greedy_merge fst] in Hg.
  destruct (decide (s ∈ P)); [apply sublist_cons, (IH P g Hg)|].
  destruct Hg as [<- | Hg]; [|apply sublist_cons, (IH _ g Hg)].
  unfold group_entries. cbn [fst snd]. apply sublist_skip, filter_sublist.
Qed.

Lemma sublist_map {A B} (f : A -> B) (l k : list A) :
  sublist l k -> sublist (map f l) (map f k).
Proof.
  induction 1; cbn [map];
    [constructor | now apply sublist_skip | now apply sublist_cons].
Qed.

Lemma group_content_flat_map (h : gmap loc (list Member))
      (groups : list ((string * loc) * list (string * loc))) :
  concat (map (group_content h) groups)
  = flat_map (fun e : string * loc => deref h (snd e))
             (concat (map group_entries groups)).
Proof.
  induction groups as [|[e ms] groups IH]; [reflexivity|].
  cbn [map concat]. rewrite List.flat_map_app, <- IH. f_equal.
  unfold group_content, group_entries. cbn [fst snd flat_map].
  now rewrite List.flat_map_concat_map.
Qed.

(** C8.  On a dictionary with distinct names whose lists are distinct
    objects, the dictionary returned by [group_similar_pois] is the greedy
    merge of the names in encounter order: one entry per group, keyed by the
    seed, holding the observations of the seed followed by those of the
    names merged into it.  Seeds come in encounter order and the names of a
    group follow their seed in that order; every input name is in exactly
    one group; every name merged into a seed has a ratio above 85 with it
    (a pair with ratio at most 85 is never merged directly); and every name
    of a later group has a ratio of at most 85 with the seed of an earlier
    group (each seed takes every later unprocessed name similar to it). *)
Theorem greedy_name_merge (T : TextLib) (pg : list (string * loc))
        (h : gmap loc (list Member)) :
  NoDup (map fst pg) -> NoDup (map snd pg) ->
  let groups := greedy_merge T ∅ pg in
  merged_contents (group_similar_pois T pg h)
  = map (fun g => (fst (fst g), group_content h g)) groups
  /\ sublist (map fst groups) pg
  /\ (forall g, In g groups -> sublist (group_entries g) pg)
  /\ Permutation (concat (map group_entries groups)) pg
  /\ (forall g m, In g groups -> In m (snd g) ->
        (85 < fuzz_ratio T (str_lower T (fst (fst g))) (str_lower T (fst m)))%Z)
  /\ ForallOrdPairs
       (fun g g' =>
          forall x, In x (group_entries g') ->
            (fuzz_ratio T (str_lower T (fst (fst g))) (str_lower T (fst x)) <= 85)%Z)
       groups.
Proof.
  intros Hnames Hlocs groups. subst groups.
  split; [now apply group_similar_pois_refines|].
  split; [apply greedy_merge_seeds_in_order|].
  split; [apply greedy_merge_group_in_order|].
  split; [now apply greedy_merge_covers|].
  split.
  - intros g m Hg Hm. apply Z.ltb_lt.
    apply (greedy_merge_similar T pg ∅ g m Hg Hm).
  - pose proof (greedy_merge_later_dissimilar T pg ∅) as H.
    induction H as [|g gs Hg Hgs IH]; constructor; [|exact IH].
    eapply List.Forall_impl; [|exact Hg].
    intros g' Hd x Hx. apply Z.ltb_ge. apply (Hd x Hx).
Qed.

(** C10.  On a dictionary with distinct names whose lists are distinct
    objects, the keys of the dictionary returned by [group_similar_pois] are
    distinct names of the input, and the concatenation of the returned
    groups is a permutation of the concatenation of the input groups as they
    were before the call: no observation is lost or duplicated. *)
Theorem merge_keeps_observations (T : TextLib) (pg : list (string * loc))
        (h : gmap loc (list Member)) :
  NoDup (map fst pg) -> NoDup (map snd pg) ->
  let out := merged_contents (group_similar_pois T pg h) in
  (forall k, In k (map fst out) -> In k (map fst pg))
  /\ NoDup (map fst out)
  /\ Permutation (concat (map snd out))
                 (concat (map (fun e : string * loc => deref h (snd e)) pg)).
Proof.
  intros Hnames Hlocs out. subst out.
  rewrite (group_similar_pois_refines T pg h Hnames Hlocs).
  rewrite !List.map_map. cbn [fst snd].
  assert (Hsub : sublist (map (fun g : (string * loc) * list (string * loc) =>
                                 fst (fst g)) (greedy_merge T ∅ pg))
                         (map fst pg)).
  { rewrite <- (List.map_map fst fst).
    apply sublist_map, greedy_merge_seeds_in_order. }
  split; [|split].
  - intros k Hk. rewrite <- list_elem_of_In in *.
    eapply elem_of_sublist; [exact Hk|exact Hsub].
  - eapply sublist_NoDup; [exact Hnames|exact Hsub].
  - change (fun x : (string * loc) * list (string * loc) => group_content h x)
      with (group_content h).
    rewrite group_content_flat_map.
    rewrite <- (List.flat_map_concat_map
                  (fun e : string * loc => deref h (snd e)) pg).
    apply (Permutation_flat_map (fun e : string * loc => deref h (snd e))).
    now apply greedy_merge_covers.
Qed.

Lemma greedy_name_merge_witness :
  merged_contents (group_similar_pois equality_text name_dict name_store)
  = [ ("Coffee House"%string, [observation 1; observation 3; observation 4]);
      ("Gas Station"%string, [observation 2]) ].
Proof.
  destruct (greedy_name_merge equality_text name_dict name_store) as [H _].
  - refine (bool_decide_unpack _ _). vm_compute. exact I.
  - refine (bool_decide_unpack _ _). vm_compute. exact I.
  - rewrite H. vm_compute. reflexivity.
Defined.

Lemma merge_keeps_observations_witness :
  Permutation
    (concat (map snd (merged_contents
                        (group_similar_pois equality_text name_dict name_store))))
    [observation 1; observation 2; observation 3; observation 4].
Proof.
  destruct (merge_keeps_observations equality_text name_dict name_store)
    as (_ & _ & H).
  - refine (bool_decide_unpack _ _). vm_compute. exact I.
  - refine (bool_decide_unpack _ _). vm_compute. exact I.
  - exact H.
Defined.

(** Why the lists must be distinct objects: when two names hold the same
    list, extending it in place shows in both groups, and the observations
    of the output outnumber those of the input. *)
Lemma aliased_lists_duplicate :
  length (concat (map snd (merged_contents
                             (group_similar_pois equality_text aliased_dict
                                                 name_store)))) = 6%nat
  /\ length (concat (map (fun e : string * loc => deref name_store (snd e))
                         aliased_dict)) = 4%nat.
Proof. split; vm_compute; reflexivity. Qed.


(** * Further properties of [side_detector.py] *)

(** ** Bearings *)

(** X1.  [calculate_bearing] answers a bearing from 0 (included) to 360
    (excluded), whatever the coordinates. *)
Theorem calculate_bearing_in_range (M : MathLib) (lat1 lon1 lat2 lon2 : Q) :
  0 <= calculate_bearing M lat1 lon1 lat2 lon2
  /\ calculate_bearing M lat1 lon1 lat2 lon2 < 360.
Proof. unfold calculate_bearing. cbv zeta. apply fmod_range. Qed.

Lemma haversine_and_bearing_range (M : MathLib) (lat1 lon1 lat2 lon2 : Q) :
  match haversine_and_bearing M lat1 lon1 (Some lat2) (Some lon2) with
  | Ok (_, brg) => 0 <= brg /\ brg < 360
  | Raise _ => False
  end.
Proof. unfold haversine_and_bearing. cbv zeta. apply fmod_range. Qed.

(** ** Sides *)

Lemma fmod_compat (x y : Q) : x == y -> fmod x 360 == fmod y 360.
Proof.
  intros H. destruct (fmod_range y) as [H0 H1].
  apply (fmod_unique _ _ (Qfloor (y / 360))); [|exact H0|exact H1].
  rewrite H. unfold fmod. ring.
Qed.

Lemma fmod_mirror (x : Q) :
  ~ fmod x 360 == 0 -> fmod (720 - x) 360 == 360 - fmod x 360.
Proof.
  intros Hnz. destruct (fmod_range x) as [H0 H1].
  apply (fmod_unique _ _ (1 - Qfloor (x / 360))); [|lra|].
  - unfold fmod. unfold Z.sub. rewrite inject_Z_plus, inject_Z_opp.
    change (inject_Z 1) with 1. ring.
  - assert (0 < fmod x 360); [|lra].
    apply Qle_lteq in H0 as [H0 | H0]; [exact H0|]. symmetry in H0. contradiction.
Qed.

(** X4.  Swapping the two bearings changes the side, except on the axis of
    the route.  For bearings at most one turn apart, with [delta] the exact
    value of [(p - r + 360) mod 360]: when [delta] is at least [2 ^ -43]
    away from 0, 180 and 360, [determine_side r p] is the opposite of
    [determine_side p r]; when [delta] is exactly 0 or 180 (straight ahead,
    straight behind) both calls answer "Right". *)
Theorem determine_side_swap (p r : Q) :
  let delta := fmod (p - r + 360) 360 in
  -360 <= p - r -> p - r <= 360 ->
  ((side_margin <= delta /\ delta <= 180 - side_margin)
   \/ (180 + side_margin <= delta /\ delta <= 360 - side_margin) ->
   determine_side r p <> determine_side p r)
  /\ (delta == 0 \/ delta == 180 ->
      determine_side p r = Right /\ determine_side r p = Right).
Proof.
  cbv zeta. intros H1 H2.
  assert (Hs : side_margin == 1 # 8796093022208) by reflexivity.
  assert (Hswap : ~ fmod (p - r + 360) 360 == 0 ->
                  fmod (r - p + 360) 360 == 360 - fmod (p - r + 360) 360).
  { intros Hnz. rewrite <- (fmod_mirror _ Hnz). apply fmod_compat. ring. }
  split.
  - intros [[Ha Hb]|[Ha Hb]].
    + rewrite (determine_side_exact_Right p r) by lra.
      rewrite (determine_side_exact_Left r p); [discriminate|lra|lra| |];
        rewrite Hswap; lra.
    + rewrite (determine_side_exact_Left p r) by lra.
      rewrite (determine_side_exact_Right r p); [discriminate|lra|lra| |];
        rewrite Hswap; lra.
  - intros Hd. split.
    + apply determine_side_exact_Right; destruct Hd as [Hd|Hd]; lra.
    + destruct Hd as [Hd|Hd].
      * assert (E : fmod (r - p + 360) 360 == 0).
        { destruct (Qlt_le_dec (p - r) 0) as [Hneg|Hpos].
          - assert (Hf : fmod (p - r + 360) 360 == p - r + 360)
              by (apply (fmod_unique _ _ 0); [ring|lra|lra]).
            apply (fmod_unique _ _ 2); [|lra|lra].
            change (inject_Z 2) with 2. lra.
          - destruct (Qlt_le_dec (p - r) 360) as [Hlt|Hge].
            + assert (Hf : fmod (p - r + 360) 360 == p - r)
                by (apply (fmod_unique _ _ 1); [ring|lra|lra]).
              apply (fmod_unique _ _ 1); [|lra|lra].
              change (inject_Z 1) with 1. lra.
            + apply (fmod_unique _ _ 0); [|lra|lra].
              change (inject_Z 0) with 0. lra. }
        apply determine_side_exact_Right; rewrite ?E; lra.
      * apply determine_side_exact_Right; try lra; rewrite Hswap; lra.
Qed.

Lemma determine_side_swap_witness :
  determine_side 0 90 <> determine_side 90 0.
Proof.
  apply (proj1 (determine_side_swap 90 0 ltac:(vm_compute; discriminate)
                                         ltac:(vm_compute; discriminate))).
  left. split; vm_compute; discriminate.
Defined.

(** ** Segment bearings *)



Lemma rows_named_update (g : gmap (option string) (list GroupEntry))
      (n : option string) (rows : list Row) :
  rows_named n (map (update_row g) rows) = map (update_row g) (rows_named n rows).
Proof. unfold rows_named. now rewrite filter_map_commute. Qed.







(** ** The rows of a run *)

Lemma first_occurrences_length (ks : list Key) :
  forall seen, (length (first_occurrences seen ks) <= length ks)%nat.
Proof.
  induction ks as [|k ks IH]; intros seen; simpl; [lia|].
  destruct (key_mem k seen); simpl.
  - specialize (IH seen). lia.
  - specialize (IH (k :: seen)). lia.
Qed.

Lemma for_each_pois_keys (M : MathLib) (res : SearchResult) (c : Q)
      (pois : list Poi) :
  forall (st st' : State) (rest : list Key),
    for_each (process_poi M (lat (coordinate res)) (lon (coordinate res)) c)
             pois st = Ok st' ->
    map row_key (data_to_write st') ++ first_occurrences (seen_records st') rest
    = map row_key (data_to_write st)
      ++ first_occurrences (seen_records st)
           (flat_map (fun poi => match observation_key res poi with
                                 | Some k => [k]
                                 | None => []
                                 end) pois ++ rest).
Proof.
  induction pois as [|p pois IH]; intros st st' rest; simpl.
  - intros H. injection H as <-. reflexivity.
  - destruct (process_poi M _ _ c st p) as [st1|e] eqn:E; simpl; [|discriminate].
    intros H. rewrite (IH st1 st' rest H). clear H IH.
    unfold process_poi, haversine_and_bearing, mbind, result_bind in E.
    unfold observation_key.
    destruct (location_lat p) as [plat|]; [|discriminate E].
    destruct (location_lng p) as [plon|]; [|discriminate E].
    cbn [Py.bind] in E. cbn [app first_occurrences].
    destruct (key_mem _ (seen_records st)); injection E as <-; [reflexivity|].
    cbn [data_to_write seen_records]. rewrite List.map_app, <- List.app_assoc.
    reflexivity.
Qed.

Lemma for_each_results_keys (M : MathLib) (sb : list Q)
      (results : list SearchResult) :
  forall (i j : nat) (st st' : State) (rest : list Key),
    for_each (process_result M sb) results (i, st) = Ok (j, st') ->
    map row_key (data_to_write st') ++ first_occurrences (seen_records st') rest
    = map row_key (data_to_write st)
      ++ first_occurrences (seen_records st) (observation_keys results ++ rest).
Proof.
  induction results as [|r results IH]; intros i j st st' rest; simpl.
  - intros H. injection H as <- <-. reflexivity.
  - unfold process_result at 1. unfold mbind, result_bind.
    destruct (current_bearing_at sb i) as [cb|e]; simpl; [|discriminate].
    destruct (for_each _ (nearby_result r) st) as [st1|e] eqn:E; simpl;
      [|discriminate].
    intros H. rewrite (IH _ _ _ _ rest H).
    rewrite (for_each_pois_keys M r cb _ _ _ (observation_keys results ++ rest) E).
    now rewrite <- List.app_assoc.
Qed.

(** X7.  When [process_pois] returns, the rows are in observation order:
    their identity keys are the keys of the observations, each kept at its
    first occurrence and dropped at the later ones; so there are at most as
    many rows as observations. *)
Theorem rows_are_first_occurrences (M : MathLib) (results : list SearchResult)
        (st : State) :
  process_pois M results = Ok st ->
  map row_key (data_to_write st) = first_occurrences [] (observation_keys results)
  /\ (length (data_to_write st) <= length (observation_keys results))%nat.
Proof.
  unfold process_pois, mbind, result_bind.
  destruct (for_each _ results (0%nat, init_state)) as [[j st0]|e] eqn:E; simpl;
    [|discriminate].
  intros H. injection H as <-.
  pose proof (for_each_results_keys M _ _ _ _ _ _ [] E) as Hk.
  cbn [first_occurrences data_to_write seen_records init_state map app] in Hk.
  rewrite !List.app_nil_r in Hk.
  assert (Hmap : map row_key (data_to_write (_update_shared_details st0))
                 = map row_key (data_to_write st0)).
  { unfold _update_shared_details. cbn [data_to_write].
    rewrite List.map_map. reflexivity. }
  split.
  - now rewrite Hmap.
  - rewrite <- (List.length_map row_key), Hmap, Hk.
    apply first_occurrences_length.
Qed.

Lemma rows_are_first_occurrences_witness :
  exists st,
    process_pois identity_math duplicate_route = Ok st
    /\ map row_key (data_to_write st)
       = [ (10, 106, 10 + (1 # 2000), 106 + (1 # 1000), Some "Shop"%string) ].
Proof.
  eexists. split; [vm_compute; reflexivity|].
  match goal with
  | |- map row_key (data_to_write ?s) = _ =>
      destruct (rows_are_first_occurrences identity_math duplicate_route s)
        as [H _]
  end.
  - vm_compute. reflexivity.
  - rewrite H. vm_compute. reflexivity.
Defined.

Lemma process_poi_measured (M : MathLib) (a b c : Q) (st st' : State) (poi : Poi) :
  Forall (measured M) (data_to_write st) ->
  process_poi M a b c st poi = Ok st' ->
  Forall (measured M) (data_to_write st').
Proof.
  intros Hall. unfold process_poi, haversine_and_bearing, mbind, result_bind.
  destruct (location_lat poi) as [plat|]; [|discriminate].
  destruct (location_lng poi) as [plon|]; [|discriminate].
  cbn [Py.bind].
  destruct (key_mem _ (seen_records st)); intros H; injection H as <-;
    [exact Hall|].
  cbn [data_to_write]. apply Forall_app. split; [exact Hall|].
  constructor; [|constructor]. reflexivity.
Qed.

Lemma for_each_pois_measured (M : MathLib) (a b c : Q) (pois : list Poi) :
  forall st st' : State,
    Forall (measured M) (data_to_write st) ->
    for_each (process_poi M a b c) pois st = Ok st' ->
    Forall (measured M) (data_to_write st').
Proof.
  induction pois as [|p pois IH]; intros st st' Hall; simpl.
  - intros H. now injection H as <-.
  - destruct (process_poi M a b c st p) as [st1|e] eqn:E; simpl; [|discriminate].
    apply IH. eapply process_poi_measured; eassumption.
Qed.

Lemma for_each_results_measured (M : MathLib) (sb : list Q)
      (results : list SearchResult) :
  forall (i j : nat) (st st' : State),
    Forall (measured M) (data_to_write st) ->
    for_each (process_result M sb) results (i, st) = Ok (j, st') ->
    Forall (measured M) (data_to_write st').
Proof.
  induction results as [|r results IH]; intros i j st st' Hall; simpl.
  - intros H. now injection H as <- <-.
  - unfold process_result at 1. unfold mbind, result_bind.
    destruct (current_bearing_at sb i) as [cb|e]; simpl; [|discriminate].
    destruct (for_each _ (nearby_result r) st) as [st1|e] eqn:E; simpl;
      [|discriminate].
    apply IH. eapply for_each_pois_measured; eassumption.
Qed.

(** X8.  When [process_pois] returns, every row carries the distance and
    the bearing that [haversine_and_bearing] gives for the row's own source
    point and POI coordinates (the update pass does not touch them), and
    its bearing is from 0 (included) to 360 (excluded). *)
Theorem rows_carry_own_measurements (M : MathLib) (results : list SearchResult)
        (st : State) :
  process_pois M results = Ok st ->
  Forall (fun r => measured M r /\ 0 <= bearing r /\ bearing r < 360)
         (data_to_write st).
Proof.
  unfold process_pois, mbind, result_bind.
  destruct (for_each _ results (0%nat, init_state)) as [[j st0]|e] eqn:E; simpl;
    [|discriminate].
  intros H. injection H as <-.
  assert (H0 : Forall (measured M) (data_to_write st0)).
  { eapply for_each_results_measured; [|exact E]. constructor. }
  unfold _update_shared_details. cbn [data_to_write].
  apply List.Forall_map. eapply List.Forall_impl; [|exact H0].
  intros r Hr. unfold measured in *. cbn [source_lat source_lon poi_lat poi_lon
                                          distance bearing update_row].
  split; [exact Hr|].
  pose proof (haversine_and_bearing_range M (source_lat r) (source_lon r)
                (poi_lat r) (poi_lon r)) as Hrange.
  rewrite Hr in Hrange. exact Hrange.
Qed.

Lemma rows_carry_own_measurements_witness :
  exists st,
    process_pois identity_math duplicate_route = Ok st
    /\ Forall (fun r => 0 <= bearing r /\ bearing r < 360) (data_to_write st).
Proof.
  eexists. split; [vm_compute; reflexivity|].
  match goal with
  | |- Forall _ (data_to_write ?s) =>
      pose proof (rows_carry_own_measurements identity_math duplicate_route s) as H
  end.
  eapply List.Forall_impl; [|apply H; vm_compute; reflexivity].
  intros r (_ & H0 & H1). split; assumption.
Defined.

(** ** Shared details *)

(** X9.  When [process_pois] returns, the rows of one POI name agree: the
    [shared_with] column of a row lists the source points of all the rows
    of its name, in row order (its own source point included), and when the
    name has more than one row all its rows carry the same side. *)
Theorem shared_details_agree (M : MathLib) (results : list SearchResult)
        (st : State) :
  process_pois M results = Ok st ->
  (forall r, In r (data_to_write st) ->
     shared_with r
     = Some (map (fun r' => (source_lat r', source_lon r'))
                 (rows_named (poi_name r) (data_to_write st))))
  /\ (forall r1 r2, In r1 (data_to_write st) -> In r2 (data_to_write st) ->
        poi_name r1 = poi_name r2 ->
        (1 < length (rows_named (poi_name r1) (data_to_write st)))%nat ->
        side r1 = side r2).
Proof.
  unfold process_pois, mbind, result_bind.
  destruct (for_each _ results (0%nat, init_state)) as [[j st0]|e] eqn:E; simpl;
    [|discriminate].
  intros H. injection H as <-.
  destruct (for_each_results_consistent M _ _ _ _ _ _ init_state_consistent E)
    as ([_ Hgroups] & _ & _).
  unfold _update_shared_details. cbn [data_to_write].
  split.
  - intros r Hr. apply in_map_iff in Hr as (r0 & <- & _).
    rewrite rows_named_update. cbn [shared_with poi_name update_row].
    rewrite Hgroups, !List.map_map. reflexivity.
  - intros r1 r2 H1 H2 Hname Hlen.
    apply in_map_iff in H1 as (a & <- & _). apply in_map_iff in H2 as (b & <- & _).
    cbn [poi_name update_row] in Hname, Hlen.
    rewrite rows_named_update, List.length_map in Hlen.
    assert (Hla : (1 < length (group_of (poi_groups st0) (poi_name a)))%nat)
      by (rewrite Hgroups, List.length_map; exact Hlen).
    rewrite (update_row_side_shared _ a Hla).
    rewrite Hname in Hla. rewrite (update_row_side_shared _ b Hla).
    now rewrite Hname.
Qed.

Lemma shared_details_agree_witness :
  exists st,
    process_pois identity_math duplicate_route = Ok st
    /\ forall r, In r (data_to_write st) -> shared_with r = Some [ (10, 106) ].
Proof.
  eexists. split; [vm_compute; reflexivity|].
  match goal with
  | |- forall r, In r (data_to_write ?s) -> _ =>
      destruct (shared_details_agree identity_math duplicate_route s) as [H _]
  end.
  - vm_compute. reflexivity.
  - intros r Hr. rewrite (H r Hr). destruct Hr as [<- | []]. reflexivity.
Defined.

(** ** A second run *)

Lemma update_row_idempotent (g : gmap (option string) (list GroupEntry))
      (row : Row) :
  update_row g (update_row g row) = update_row g row.
Proof.
  unfold update_row. cbn [poi_name side source_lat source_lon poi_lat poi_lon
                          distance bearing all_types].
  destruct (1 <? length (group_of g (poi_name row)))%nat; reflexivity.
Qed.

Lemma for_each_pois_all_seen (M : MathLib) (res : SearchResult) (c : Q)
      (pois : list Poi) (st : State) :
  (forall poi, In poi pois ->
     exists k, observation_key res poi = Some k
               /\ key_mem k (seen_records st) = true) ->
  for_each (process_poi M (lat (coordinate res)) (lon (coordinate res)) c) pois st
  = Ok st.
Proof.
  induction pois as [|p pois IH]; intros Hall; simpl; [reflexivity|].
  destruct (Hall p) as (k & Hk & Hseen); [now left|].
  unfold observation_key in Hk.
  destruct (location_lat p) as [plat|] eqn:Elat; [|discriminate Hk].
  destruct (location_lng p) as [plon|] eqn:Elon; [|discriminate Hk].
  injection Hk as <-.
  rewrite (seen_observation_is_dropped M _ _ c st p plat plon Elat Elon Hseen).
  simpl. apply IH. intros poi Hin. apply Hall. now right.
Qed.

Lemma for_each_results_all_seen (M : MathLib) (sb : list Q)
      (results : list SearchResult) (st : State) :
  sb <> [] ->
  (forall res poi, In res results -> In poi (nearby_result res) ->
     exists k, observation_key res poi = Some k
               /\ key_mem k (seen_records st) = true) ->
  forall i, for_each (process_result M sb) results (i, st)
            = Ok ((i + length results)%nat, st).
Proof.
  intros Hsb. induction results as [|r results IH]; intros Hall i; simpl.
  - now rewrite Nat.add_0_r.
  - unfold process_result at 1. unfold mbind, result_bind.
    destruct (current_bearing_at_nonempty sb i Hsb) as [b ->]. simpl.
    rewrite for_each_pois_all_seen by (intros poi Hin; apply Hall; [now left|exact Hin]).
    simpl. rewrite IH by (intros res poi Hres; apply Hall; now right).
    f_equal. f_equal. lia.
Qed.

(** X10.  Running [process_pois] a second time on the same object changes
    nothing: every observation is found among the seen keys and dropped, no
    row and no group entry is added, and the update pass rewrites the same
    sides and the same [shared_with] columns. *)
Theorem second_run_changes_nothing (M : MathLib) (results : list SearchResult)
        (st : State) :
  process_pois M results = Ok st ->
  process_pois_from M results init_state = Ok st
  /\ process_pois_from M results st = Ok st.
Proof.
  intros Hrun. split; [exact Hrun|].
  destruct results as [|r1 [|r2 rest]].
  - injection Hrun as <-. reflexivity.
  - discriminate Hrun.
  - assert (Hsb : _calculate_segment_bearings M (r1 :: r2 :: rest) <> [])
      by (apply segment_bearings_nonempty; simpl; lia).
    revert Hrun. unfold process_pois, process_pois_from, mbind, result_bind.
    destruct (for_each _ (r1 :: r2 :: rest) (0%nat, init_state))
      as [[j st0]|e] eqn:E; cbn [Py.bind]; [|discriminate].
    intros H. injection H as <-.
    destruct (for_each_results_consistent M _ _ _ _ _ _ init_state_consistent E)
      as (_ & _ & Hall).
    rewrite (for_each_results_all_seen M _ _ (_update_shared_details st0) Hsb Hall).
    cbn [Py.bind]. f_equal.
    unfold _update_shared_details. cbn [poi_groups seen_records data_to_write].
    f_equal. rewrite List.map_map. apply List.map_ext. intros r.
    apply update_row_idempotent.
Qed.

Lemma second_run_changes_nothing_witness :
  exists st,
    process_pois identity_math duplicate_route = Ok st
    /\ process_pois_from identity_math duplicate_route st = Ok st.
Proof.
  eexists. split; [vm_compute; reflexivity|].
  match goal with
  | |- process_pois_from _ _ ?s = _ =>
      apply (second_run_changes_nothing identity_math duplicate_route s)
  end.
  vm_compute. reflexivity.
Defined.

(** * Further properties of [POI_Optimizer.py] *)

(** ** The member of minimum bearing *)

Lemma min_by_bearing_first (rest : list Member) :
  forall best : Member,
    let a := min_by_bearing best rest in
    (a = best /\ forall m, In m rest -> member_bearing best <= member_bearing m)
    \/ (exists before after,
          rest = before ++ a :: after
          /\ member_bearing a < member_bearing best
          /\ (forall m, In m before -> member_bearing a < member_bearing m)
          /\ (forall m, In m after -> member_bearing a <= member_bearing m)).
Proof.
  induction rest as [|x rest IH]; intros best; cbn zeta.
  - left. split; [reflexivity|]. intros ? [].
  - cbn [min_by_bearing].
    destruct (Qlt_bool (member_bearing x) (member_bearing best)) eqn:E.
    + apply Qlt_bool_true in E. right.
      destruct (IH x) as [[Ha Hall] | (before & after & Hrest & Hlt & Hb & Ha)].
      * exists [], rest. rewrite Ha. cbn [app]. repeat split; auto. intros ? [].
      * exists (x :: before), after. cbn [app]. rewrite <- Hrest.
        split; [reflexivity|]. split; [lra|]. split; [|exact Ha].
        intros m [<- | Hm]; [exact Hlt|now apply Hb].
    + apply Qlt_bool_false in E.
      destruct (IH best) as [[Ha Hall] | (before & after & Hrest & Hlt & Hb & Ha)].
      * left. split; [exact Ha|]. intros m [<- | Hm]; [exact E|now apply Hall].
      * right. exists (x :: before), after. cbn [app]. rewrite <- Hrest.
        split; [reflexivity|]. split; [exact Hlt|]. split; [|exact Ha].
        intros m [<- | Hm]; [lra|now apply Hb].
Qed.

(** X11.  [find_min_bearing] raises [ValueError] exactly on the empty group;
    on a group with members it answers the first member of minimum
    bearing: every member before it has a strictly larger bearing and every
    member after it a bearing at least as large. *)
Theorem find_min_bearing_first (group : list Member) :
  match find_min_bearing group with
  | Ok a =>
      exists before after,
        group = before ++ a :: after
        /\ (forall m, In m before -> member_bearing a < member_bearing m)
        /\ (forall m, In m after -> member_bearing a <= member_bearing m)
  | Raise e => e = ValueError /\ group = []
  end.
Proof.
  destruct group as [|x rest]; [split; reflexivity|].
  cbn [find_min_bearing].
  destruct (min_by_bearing_first rest x)
    as [[Ha Hall] | (before & after & Hrest & Hlt & Hb & Ha)].
  - exists [], rest. rewrite Ha. cbn [app]. repeat split; auto. intros ? [].
  - exists (x :: before), after. cbn [app]. rewrite <- Hrest.
    split; [reflexivity|]. split; [|exact Ha].
    intros m [<- | Hm]; [exact Hlt|now apply Hb].
Qed.

(** ** The whole reconstruction *)

Lemma labelled_members_append (d : list (string * list Member)) (k : string)
      (v : Member) :
  Permutation (labelled_members (dict_append d k v))
              (labelled_members d ++ [(v, k)]).
Proof.
  induction d as [|[k1 l] d IH]; [reflexivity|].
  cbn [dict_append].
  destruct (String.eqb_spec k k1) as [->|Hne].
  - unfold labelled_members. cbn [flat_map fst snd].
    rewrite List.map_app. cbn [map]. rewrite <- !List.app_assoc.
    apply Permutation_app_head. apply Permutation_app_comm.
  - unfold labelled_members in *. cbn [flat_map fst snd].
    rewrite <- List.app_assoc. now apply Permutation_app_head.
Qed.

Lemma read_groups_labelled (T : TextLib) (rows : list CsvRow) :
  forall d : list (string * list Member),
    Permutation
      (labelled_members (fold_left (read_row T) rows d))
      (labelled_members d
       ++ map (fun r => (member_of_row r, csv_poi_name r))
              (List.filter (selected T) rows)).
Proof.
  induction rows as [|row rows IH]; intros d; cbn [fold_left List.filter map].
  - now rewrite List.app_nil_r.
  - rewrite IH, read_row_selected.
    destruct (selected T row); [|reflexivity].
    rewrite labelled_members_append, <- List.app_assoc. reflexivity.
Qed.

Lemma group_rows_labelled (M : MathLib) (d : list (string * list Member)) :
  (forall n g, In (n, g) d -> g <> []) ->
  map (fun o => (out_source_lat o, out_source_lon o, out_poi_name o))
      (concat (map (group_rows M) d))
  = map (fun mn : Member * string =>
           (member_source_lat (fst mn), member_source_lon (fst mn), snd mn))
        (labelled_members d).
Proof.
  induction d as [|[n g] d IH]; intros Hne; [reflexivity|].
  unfold labelled_members in *. cbn [map concat flat_map fst snd].
  rewrite !List.map_app, IH by (intros n' g' H; apply (Hne n'); now right).
  f_equal.
  destruct (find_min_bearing_spec g) as (anchor & Hmin & _);
    [apply (Hne n); now left|].
  unfold group_rows. cbn [fst snd]. rewrite Hmin. unfold rows_at.
  rewrite !List.map_map. reflexivity.
Qed.

(** X12.  [optimize_poi_positions] never raises (no group it builds is
    empty, so the minimum always exists), and its output has exactly one
    row for each input row that has a non-empty name and a side equal to
    "right" once lower-cased, carrying that row's source point and name;
    the other input rows give nothing. *)
Theorem optimize_poi_positions_total (M : MathLib) (T : TextLib)
        (rows : list CsvRow) :
  exists out,
    optimize_poi_positions M T rows = Ok out
    /\ Permutation
         (map (fun o => (out_source_lat o, out_source_lon o, out_poi_name o)) out)
         (map (fun r => (csv_source_lat r, csv_source_lon r, csv_poi_name r))
              (List.filter (selected T) rows))
    /\ length out = length (List.filter (selected T) rows).
Proof.
  destruct (read_groups_groups_of T rows) as [Hnd Hget].
  assert (Hall : forall k g, In (k, g) (read_groups T rows) -> g <> []).
  { intros k g Hin. pose proof (dict_get_In _ _ _ Hnd Hin) as Hk.
    rewrite Hget in Hk. destruct (members_named T k rows); congruence. }
  exists (concat (map (group_rows M) (read_groups T rows))).
  assert (Hperm :
    Permutation
      (map (fun o => (out_source_lat o, out_source_lon o, out_poi_name o))
           (concat (map (group_rows M) (read_groups T rows))))
      (map (fun r => (csv_source_lat r, csv_source_lon r, csv_poi_name r))
           (List.filter (selected T) rows))).
  { rewrite (group_rows_labelled M _ Hall). unfold read_groups.
    rewrite (read_groups_labelled T rows []). cbn [labelled_members flat_map app].
    rewrite List.map_map. reflexivity. }
  split; [|split].
  - unfold optimize_poi_positions. now rewrite for_each_optimize_step.
  - exact Hperm.
  - apply Permutation_length in Hperm. now rewrite !List.length_map in Hperm.
Qed.

(** ** The name merge and the lists it is given *)

Lemma list_extend_lookup_ne (h : gmap loc (list Member)) (a b l : loc) :
  l <> a -> list_extend h a b !! l = h !! l.
Proof. intros H. unfold list_extend. now rewrite lookup_insert_ne. Qed.

Lemma list_extend_prefix (h : gmap loc (list Member)) (a b l : loc) :
  deref h l `prefix_of` deref (list_extend h a b) l.
Proof.
  rewrite deref_list_extend. destruct (decide (l = a)) as [->|]; [|reflexivity].
  now exists (deref h b).
Qed.

Lemma merge_other_fold_frame (T : TextLib) (s : string) (sl : loc)
      (xs : list (string * loc)) :
  forall st : MergeState,
    let st' := fold_left (merge_other T s sl) xs st in
    merged_poi_groups st' = merged_poi_groups st
    /\ (forall l, l <> sl -> heap st' !! l = heap st !! l)
    /\ (forall l, deref (heap st) l `prefix_of` deref (heap st') l).
Proof.
  induction xs as [|[n l] xs IH]; intros st; cbn zeta.
  - simpl. repeat split; reflexivity.
  - cbn [fold_left]. rewrite merge_other_cases.
    destruct (negb (bool_decide (n ∈ processed_names st)) && similar T s n);
      [|apply IH].
    destruct (IH {| merged_poi_groups := merged_poi_groups st;
                    processed_names := {[n]} ∪ processed_names st;
                    heap := list_extend (heap st) sl l |}) as (Hm & Hf & Hp).
    cbn [merged_poi_groups heap] in Hm, Hf, Hp.
    split; [exact Hm|]. split.
    + intros l0 Hl0. rewrite (Hf l0 Hl0). now apply list_extend_lookup_ne.
    + intros l0. etransitivity; [apply list_extend_prefix|apply Hp].
Qed.

Lemma merge_name_fold_frame (T : TextLib) (pg later : list (string * loc)) :
  forall st : MergeState,
    let st' := fold_left (merge_name T pg) later st in
    exists new,
      merged_poi_groups st' = merged_poi_groups st ++ new
      /\ sublist new later
      /\ (forall l, (forall e, In e new -> snd e <> l) ->
                    heap st' !! l = heap st !! l)
      /\ (forall l, deref (heap st) l `prefix_of` deref (heap st') l).
Proof.
  induction later as [|[s sl] later IH]; intros st; cbn zeta.
  - exists []. simpl. rewrite List.app_nil_r.
    split; [reflexivity|]. split; [constructor|]. split; reflexivity.
  - cbn [fold_left]. rewrite merge_name_cases.
    destruct (decide (s ∈ processed_names st)) as [Hin|Hnin].
    + destruct (IH st) as (new & Hm & Hsub & Hf & Hp).
      exists new. split; [exact Hm|]. split; [now apply sublist_cons|].
      split; assumption.
    + set (st1 := {| merged_poi_groups := merged_poi_groups st ++ [(s, sl)];
                     processed_names := {[s]} ∪ processed_names st;
                     heap := heap st |}).
      destruct (merge_other_fold_frame T s sl pg st1) as (Hm2 & Hf2 & Hp2).
      destruct (IH (fold_left (merge_other T s sl) pg st1))
        as (new & Hm & Hsub & Hf & Hp).
      exists ((s, sl) :: new). split; [|split; [|split]].
      * rewrite Hm, Hm2. cbn [merged_poi_groups st1].
        now rewrite <- List.app_assoc.
      * now apply sublist_skip.
      * intros l Hl. rewrite Hf by (intros e He; apply Hl; now right).
        rewrite Hf2; [reflexivity|].
        intros ->. now apply (Hl (s, sl)); [left|].
      * intros l. etransitivity; [apply (Hp2 l)|apply Hp].
Qed.

(** X13.  The dictionary returned by [group_similar_pois] holds list
    objects of the input, not copies: its entries are entries of the input
    (a name with the very list the input holds under that name), in the
    order of the input. *)
Theorem merged_groups_are_input_lists (T : TextLib) (pg : list (string * loc))
        (h : gmap loc (list Member)) :
  sublist (merged_poi_groups (group_similar_pois T pg h)) pg.
Proof.
  destruct (merge_name_fold_frame T pg pg
              {| merged_poi_groups := []; processed_names := ∅; heap := h |})
    as (new & Hm & Hsub & _).
  unfold group_similar_pois. rewrite Hm. exact Hsub.
Qed.

(** X14.  [group_similar_pois] changes the lists it is given in place, and
    only by appending: the contents a list had before the call is a prefix
    of its contents after the call, and a list that is not a value of the
    returned dictionary is left exactly as it was. *)
Theorem merge_only_appends (T : TextLib) (pg : list (string * loc))
        (h : gmap loc (list Member)) (l : loc) :
  let st := group_similar_pois T pg h in
  deref h l `prefix_of` deref (heap st) l
  /\ ((forall e, In e (merged_poi_groups st) -> snd e <> l) ->
      heap st !! l = h !! l).
Proof.
  cbv zeta.
  destruct (merge_name_fold_frame T pg pg
              {| merged_poi_groups := []; processed_names := ∅; heap := h |})
    as (new & Hm & _ & Hf & Hp).
  unfold group_similar_pois. split; [apply Hp|].
  rewrite Hm. cbn [merged_poi_groups app heap]. apply Hf.
Qed.

Lemma merge_only_appends_witness :
  heap (group_similar_pois equality_text name_dict name_store) !! 2%nat
  = name_store !! 2%nat.
Proof.
  apply (merge_only_appends equality_text name_dict name_store 2%nat).
  vm_compute. intros e [<- | [<- | []]]; discriminate.
Defined.

Lemma merge_other_fold_nothing (T : TextLib) (s : string) (sl : loc)
      (xs : list (string * loc)) (st : MergeState) :
  (forall e, In e xs ->
             fst e ∈ processed_names st \/ similar T s (fst e) = false) ->
  fold_left (merge_other T s sl) xs st = st.
Proof.
  induction xs as [|[n l] xs IH]; intros Hall; [reflexivity|].
  cbn [fold_left]. rewrite merge_other_cases.
  destruct (Hall (n, l)) as [Hin | Hdis]; [now left| |].
  - rewrite (bool_decide_eq_true_2 _ Hin). cbn [negb andb].
    apply IH. intros e He. apply Hall. now right.
  - cbn [fst] in Hdis. rewrite Hdis, andb_false_r.
    apply IH. intros e He. apply Hall. now right.
Qed.

Lemma merge_name_fold_nothing (T : TextLib) (pg : list (string * loc))
      (h : gmap loc (list Member)) :
  (forall e1 e2, In e1 pg -> In e2 pg -> fst e1 <> fst e2 ->
                 similar T (fst e1) (fst e2) = false) ->
  forall later earlier : list (string * loc),
    NoDup (map fst (earlier ++ later)) ->
    (forall e, In e later -> In e pg) ->
    fold_left (merge_name T pg) later
      {| merged_poi_groups := earlier;
         processed_names := list_to_set (map fst earlier);
         heap := h |}
    = {| merged_poi_groups := earlier ++ later;
         processed_names := list_to_set (map fst (earlier ++ later));
         heap := h |}.
Proof.
  intros Hdis. induction later as [|[s sl] later IH]; intros earlier Hnd Hin.
  - cbn [fold_left]. now rewrite List.app_nil_r.
  - cbn [fold_left]. rewrite merge_name_cases.
    cbn [processed_names merged_poi_groups heap].
    assert (Hs : s ∉ (list_to_set (map fst earlier) : gset string)).
    { rewrite List.map_app in Hnd. apply NoDup_app in Hnd as (_ & Hsep & _).
      intros Hs. apply elem_of_list_to_set in Hs.
      apply (Hsep s Hs). cbn [map fst]. now left. }
    destruct (decide (s ∈ (list_to_set (map fst earlier) : gset string)))
      as [Hc|_]; [contradiction|].
    rewrite merge_other_fold_nothing.
    + replace ({[s]} ∪ list_to_set (map fst earlier) : gset string)
        with (list_to_set (map fst (earlier ++ [(s, sl)])) : gset string).
      * rewrite IH.
        -- rewrite <- List.app_assoc. reflexivity.
        -- rewrite <- List.app_assoc. exact Hnd.
        -- intros e He. apply Hin. now right.
      * rewrite List.map_app, list_to_set_app_L. cbn [map fst list_to_set].
        set_solver.
    + intros e He. cbn [processed_names].
      destruct (decide (fst e = s)) as [->|Hne]; [left; set_solver|].
      right. apply (Hdis (s, sl) e); [apply Hin; now left|exact He|].
      cbn [fst]. congruence.
Qed.

(** X15.  When no two different names of the dictionary are similar,
    [group_similar_pois] returns the dictionary as it is: every name keeps
    its own list, in the same order, and no list is changed. *)
Theorem merge_without_similar_names (T : TextLib) (pg : list (string * loc))
        (h : gmap loc (list Member)) :
  NoDup (map fst pg) ->
  (forall e1 e2, In e1 pg -> In e2 pg -> fst e1 <> fst e2 ->
                 similar T (fst e1) (fst e2) = false) ->
  merged_poi_groups (group_similar_pois T pg h) = pg
  /\ heap (group_similar_pois T pg h) = h.
Proof.
  intros Hnd Hdis. unfold group_similar_pois.
  pose proof (merge_name_fold_nothing T pg h Hdis pg [] Hnd (fun e He => He)) as H.
  cbn [map list_to_set app] in H. rewrite H. split; reflexivity.
Qed.

Lemma merge_without_similar_names_witness :
  merged_poi_groups
    (group_similar_pois equality_text
       [ ("Coffee House"%string, 0%nat); ("Gas Station"%string, 1%nat) ]
       name_store)
  = [ ("Coffee House"%string, 0%nat); ("Gas Station"%string, 1%nat) ].
Proof.
  apply merge_without_similar_names.
  - refine (bool_decide_unpack _ _). vm_compute. exact I.
  - intros e1 e2 [<- | [<- | []]] [<- | [<- | []]] Hne;
      try reflexivity; exfalso; apply Hne; reflexivity.
Defined.

(** ** The weighted mean *)

Lemma weights_of_None (distances : list Q) (epsilon : Q) :
  weights_of distances epsilon = None
  <-> exists d, In d distances /\ d + epsilon == 0.
Proof.
  induction distances as [|d ds IH]; cbn [weights_of].
  - split; [discriminate|]. intros (? & [] & _).
  - destruct (Qeq_bool (d + epsilon) 0) eqn:E.
    + apply Qeq_bool_iff in E. split; [|reflexivity].
      intros _. exists d. split; [now left|exact E].
    + apply Qeq_bool_neq in E.
      destruct (weights_of ds epsilon) as [ws|]; cbn [option_map].
      * split; [discriminate|]. intros (d' & [<- | Hin] & Hz); [contradiction|].
        assert (Hc : Some ws = None) by (apply IH; exists d'; auto).
        discriminate Hc.
      * split; [|reflexivity]. intros _.
        destruct IH as [IH _]. destruct (IH eq_refl) as (d' & Hin & Hz).
        exists d'. split; [now right|exact Hz].
Qed.

(** X18.  [weighted_average_position] raises [ZeroDivisionError] exactly
    when some distance is the opposite of [epsilon]; with the default
    [epsilon] and distances that are not negative this cannot happen. *)
Theorem weighted_average_zero_division (latitudes longitudes distances : list Q)
        (epsilon : Q) :
  (weighted_average_position latitudes longitudes distances epsilon = ZeroDivision
   <-> exists d, In d distances /\ d + epsilon == 0)
  /\ ((forall d, In d distances -> 0 <= d) ->
      weighted_average_position latitudes longitudes distances default_epsilon
      <> ZeroDivision).
Proof.
  assert (Hiff : forall eps,
             weighted_average_position latitudes longitudes distances eps
             = ZeroDivision
             <-> weights_of distances eps = None).
  { intros eps. unfold weighted_average_position.
    destruct (weights_of distances eps) as [ws|]; [|split; reflexivity].
    split; [|discriminate].
    destruct (broadcast_mul latitudes ws); [|discriminate].
    destruct (broadcast_mul longitudes ws); discriminate. }
  split.
  - rewrite Hiff. apply weights_of_None.
  - intros Hd. rewrite Hiff, weights_of_None.
    intros (d & Hin & Hz). specialize (Hd d Hin).
    unfold default_epsilon in Hz. lra.
Qed.

Lemma weighted_average_zero_division_witness :
  weighted_average_position [10; 10] [106; 106] [5; 300] default_epsilon
  <> ZeroDivision.
Proof.
  apply (proj2 (weighted_average_zero_division [10; 10] [106; 106] [5; 300]
                  default_epsilon)).
  intros d [<- | [<- | []]]; vm_compute; intros H; discriminate H.
Defined.

(** ** The estimates of the geometric median *)

Lemma combine_map_r {A B} (f : A -> B) (l : list A) :
  combine l (map f l) = map (fun a => (a, f a)) l.
Proof. induction l as [|a l IH]; simpl; [reflexivity|]. now rewrite IH. Qed.

(** The members that enter an update: those farther than the tolerance from
    the estimate. *)
Lemma new_median_of_kept (M : MathLib) (coords : list Point) (median : Point) :
  new_median_of M tolerance coords median
  = let kept := List.filter (far_from M median) coords in
    let inv := map (fun c => 1 / norm M (point_sub c median)) kept in
    let weighted := combine (map (fun i => i / sum inv) inv) kept in
    (sum (map (fun wc : Q * Point => fst wc * fst (snd wc)) weighted),
     sum (map (fun wc : Q * Point => fst wc * snd (snd wc)) weighted)).
Proof.
  unfold new_median_of. cbv zeta.
  rewrite combine_map_r.
  rewrite (filter_map_commute
             (fun cd : Point * Q => Qlt_bool tolerance (snd cd))
             (fun c => (c, norm M (point_sub c median))) coords).
  cbn [snd]. fold (far_from M median).
  change (fun x : Point => Qlt_bool tolerance (norm M (point_sub x median)))
    with (far_from M median).
  rewrite !List.map_map. cbn [fst snd].
  rewrite List.map_id. reflexivity.
Qed.

(** X19.  One update of [geometric_median] when no member is farther than
    the tolerance from the current estimate (for instance when every member
    is at the estimate): the weights are taken over no member, and the new
    estimate is the origin (0, 0), wherever the members are. *)
Theorem update_without_far_member (M : MathLib) (coords : list Point)
        (median : Point) :
  (forall c, In c coords -> far_from M median c = false) ->
  new_median_of M tolerance coords median = (0, 0).
Proof.
  intros Hnear. rewrite new_median_of_kept. cbv zeta.
  rewrite (filter_all_false _ _ Hnear). reflexivity.
Qed.

Lemma update_without_far_member_witness :
  new_median_of identity_math tolerance [ (1, 1); (1, 1) ] (1, 1) = (0, 0).
Proof.
  apply (update_without_far_member identity_math [ (1, 1); (1, 1) ] (1, 1)).
  intros c [<- | [<- | []]]; reflexivity.
Defined.
